(** * McGill-Billboard chord transcripts: a model of [dataset.py]

    The development embeds the parser [McGillBillboard._process_salami] and
    the vocabulary construction of [McGillBillboard.preprocess] and proves
    properties of them.

    Python strings are sequences of code points; here a string is a list of
    [ascii] characters, read as the code points 0..255.  On that range the
    classes used by the source are: [\s] and [str.strip()] the characters
    9-13, 28-32, 133 and 160; [\d] the digits 0-9; [.] every character but
    the line feed.

    What [int] and the repetition of a list do with a repeat marker
    depends on limits of the interpreter that runs the program; the model
    takes them from an [interpreter]. *)

From stdpp Require Import gmap strings list sorting.
From Stdlib Require Import Ascii ZArith.
From Stdlib Require String.

Open Scope Z_scope.
Open Scope nat_scope.

Abbreviation str := (list ascii).
Coercion String.list_ascii_of_string : string >-> list.

(** A list of string literals as a list of [str]. *)
Definition strs (l : list string) : list str :=
  String.list_ascii_of_string <$> l.

(** ** Exceptions *)

Inductive exn :=
  ValueError | IndexError | KeyError | OverflowError | MemoryError.

Inductive result (A : Type) :=
| Ok (a : A)
| Raise (e : exn).
Arguments Ok {A} a.
Arguments Raise {A} e.

Global Instance result_ret : MRet result := fun A a => Ok a.
Global Instance result_bind : MBind result := fun A B f r =>
  match r with
  | Ok a => f a
  | Raise e => Raise e
  end.

(** ** The interpreter

    Two built-ins that [resolve_repeats] calls have limits that depend on
    the interpreter: [int] refuses a literal of more digits than
    [sys.get_int_max_str_digits()] (4300 by default from Python 3.11 on; 0
    stands for no limit, as in the versions before), and the repetition of
    a list takes a count of at most [sys.maxsize] and needs memory for the
    copies.  [can_allocate n] tells whether the interpreter finds the
    memory for a list of [n] items. *)

Record interpreter := Interpreter {
  maxsize : positive;
  max_str_digits : nat;
  can_allocate : Z → bool
}.

(** CPython 3.11 on a 64-bit platform, with memory for lists of up to
    2^30 items. *)
Definition cpython : interpreter :=
  Interpreter (2 ^ 63 - 1) 4300 (fun n => (n <=? 2 ^ 30)%Z).

(** ** The Python built-ins the source calls *)

Module Py.

Definition ord (c : ascii) : N := N_of_ascii c.

Definition in_range (lo hi : N) (c : ascii) : bool :=
  ((lo <=? ord c) && (ord c <=? hi))%N.

(** [str.isspace] on one character; also the class [\s] of [re]. *)
Definition isspace (c : ascii) : bool :=
  in_range 9 13 c || in_range 28 32 c || (ord c =? 133)%N || (ord c =? 160)%N.

(** The class [\d] of [re], and the digits [int] reads. *)
Definition isdigit (c : ascii) : bool := in_range 48 57 c.

Fixpoint take_while (p : ascii → bool) (s : str) : str :=
  match s with
  | c :: r => if p c then c :: take_while p r else []
  | [] => []
  end.

Fixpoint drop_while (p : ascii → bool) (s : str) : str :=
  match s with
  | c :: r => if p c then drop_while p r else s
  | [] => []
  end.

(** [s.split(sep)] for a one-character separator. *)
Fixpoint split (sep : ascii) (s : str) : list str :=
  match s with
  | [] => [[]]
  | c :: r =>
      if Ascii.eqb c sep then [] :: split sep r
      else match split sep r with
           | h :: t => (c :: h) :: t
           | [] => [[c]]
           end
  end.

(** [s.split(sep, maxsplit=1)]: one or two pieces. *)
Fixpoint split1 (sep : ascii) (s : str) : list str :=
  match s with
  | [] => [[]]
  | c :: r =>
      if Ascii.eqb c sep then [[]; r]
      else match split1 sep r with
           | h :: t => (c :: h) :: t
           | [] => [[c]]
           end
  end.

(** [s.startswith(p)]. *)
Fixpoint startswith (s p : str) {struct p} : bool :=
  match p, s with
  | [], _ => true
  | a :: p', b :: s' => Ascii.eqb a b && startswith s' p'
  | _ :: _, [] => false
  end.

(** [s.lstrip(chars)]: leading characters that belong to [chars] go. *)
Definition lstrip (chars : str) (s : str) : str :=
  drop_while (fun c => existsb (Ascii.eqb c) chars) s.

(** [s] without the characters of the class [p] at its two ends. *)
Fixpoint rstrip_of (p : ascii → bool) (s : str) : str :=
  match s with
  | [] => []
  | c :: r =>
      match rstrip_of p r with
      | [] => if p c then [] else [c]
      | r' => c :: r'
      end
  end.

Definition strip_of (p : ascii → bool) (s : str) : str :=
  rstrip_of p (drop_while p s).

(** [s.strip()]: white space goes. *)
Definition strip (s : str) : str := strip_of isspace s.

(** [s.replace(c, '')] for a one-character [c]. *)
Definition remove_char (c : ascii) (s : str) : str :=
  List.filter (fun d => negb (Ascii.eqb d c)) s.

Definition digit_val (c : ascii) : Z := Z.of_N (ord c) - 48.

(** The digits of an [int] literal: single underscores may separate
    digits. [seen] tells whether the previous character was a digit. *)
Fixpoint int_digits (acc : Z) (seen : bool) (s : str) : option Z :=
  match s with
  | [] => if seen then Some acc else None
  | c :: r =>
      if isdigit c then int_digits (10 * acc + digit_val c)%Z true r
      else if Ascii.eqb c "_" && seen then int_digits acc false r
      else None
  end.

(** The white space that [int] accepts around a number: that of
    [str.isspace] without the separators 28 to 31. *)
Definition int_space (c : ascii) : bool :=
  in_range 9 13 c || (ord c =? 32)%N || (ord c =? 133)%N || (ord c =? 160)%N.

(** [int] counts the digits of a literal that has more than 640 of them,
    and refuses the literal when the interpreter has a limit and the
    digits are more. *)
Definition digits_exceed (py : interpreter) (t : str) : bool :=
  let n := length (List.filter isdigit t) in
  (640 <? n) && (0 <? max_str_digits py) && (max_str_digits py <? n).

(** [int(s)] in base ten. *)
Definition int (py : interpreter) (s : str) : result Z :=
  let body (sign : Z) (t : str) :=
    if digits_exceed py t then Raise ValueError else
    match int_digits 0 false t with
    | Some v => Ok (sign * v)%Z
    | None => Raise ValueError
    end in
  match strip_of int_space s with
  | c :: t =>
      if Ascii.eqb c "+" then body 1%Z t
      else if Ascii.eqb c "-" then body (-1)%Z t
      else body 1%Z (c :: t)
  | [] => body 1%Z []
  end.

(** The list that [l * n] denotes: no copy at all when [n <= 0]. *)
Definition copies {A} (l : list A) (n : Z) : list A :=
  mjoin (replicate (Z.to_nat n) l).

(** [l * n] for a count [n] of any size: a count outside the index range
    [-sys.maxsize - 1 .. sys.maxsize] raises [OverflowError]; otherwise an
    empty result is returned at once, and a result with items needs
    memory, without which [MemoryError] is raised. *)
Definition list_mul (py : interpreter) {A} (l : list A) (n : Z)
  : result (list A) :=
  if (n <? - Z.pos (maxsize py) - 1)%Z || (Z.pos (maxsize py) <? n)%Z
  then Raise OverflowError
  else
    let size := (Z.of_nat (length l) * n)%Z in
    if (size <=? 0)%Z then Ok []
    else if can_allocate py size then Ok (copies l n)
    else Raise MemoryError.

(** [l[-1]]. *)
Definition last_item {A} (l : list A) : result A :=
  match last l with
  | Some a => Ok a
  | None => Raise IndexError
  end.

(** [l[:-1]]. *)
Definition but_last {A} (l : list A) : list A := removelast l.

(** [a, b = zip( *pairs )]: unpacking raises when there is no pair. *)
Definition unzip2 {A B} (l : list (A * B)) : result (list A * list B) :=
  match l with
  | [] => Raise ValueError
  | _ => Ok (l.*1, l.*2)
  end.

(** [{k: v for (k, v) in pairs}]: a later pair replaces an earlier one. *)
Definition dict_of `{Countable K} {V} (l : list (K * V)) : gmap K V :=
  fold_left (fun m kv => <[kv.1 := kv.2]> m) l ∅.

End Py.

(** ** The two regular expressions of [_process_salami]

    Each function below is the backtracking matcher of [re] specialised to
    one piece of a pattern; the piece is quoted above it.  A greedy
    repetition of a character class followed by a character outside the
    class has a single way to succeed, the longest run, so it is written
    with [take_while] and [drop_while]. *)

Module Re.
Import Py.

Definition tab : ascii := "009"%char.
Definition nl : ascii := "010"%char.

(** *** [section_regex]

    [^.*\t(?:[A-Z]'*, )?(?P<type>[a-z\-]+),(?:.*\n)*?(?=^.*\t(?:[A-Z]'*, )?(?:[a-z\-]+))]
    with [re.MULTILINE]. *)

Definition is_upper (c : ascii) : bool := in_range 65 90 c.

(** [[a-z\-]] *)
Definition is_label_char (c : ascii) : bool :=
  in_range 97 122 c || Ascii.eqb c "-".

(** [[A-Z]'*, ] at the head of [s]: what follows it. *)
Definition variant_marker (s : str) : option str :=
  match s with
  | c :: r =>
      if is_upper c then
        match drop_while (Ascii.eqb "'") r with
        | c1 :: c2 :: r' =>
            if Ascii.eqb c1 "," && Ascii.eqb c2 " " then Some r' else None
        | _ => None
        end
      else None
  | [] => None
  end.

(** [(?P<type>[a-z\-]+),] at the head of [s]: the group [type]. *)
Definition label_comma (s : str) : option str :=
  match take_while is_label_char s, drop_while is_label_char s with
  | c :: w, d :: _ => if Ascii.eqb d "," then Some (c :: w) else None
  | _, _ => None
  end.

(** [(?:[a-z\-]+)] at the head of [s]. *)
Definition label_ahead (s : str) : bool :=
  match s with
  | c :: _ => is_label_char c
  | [] => false
  end.

(** [(?:[A-Z]'*, )?(?P<type>[a-z\-]+),]: the optional group is tried
    first, and left out when the rest fails after it. *)
Definition start_after_tab (s : str) : option str :=
  match variant_marker s with
  | Some r =>
      match label_comma r with
      | Some w => Some w
      | None => label_comma s
      end
  | None => label_comma s
  end.

(** [(?:[A-Z]'*, )?(?:[a-z\-]+)] *)
Definition ahead_after_tab (s : str) : bool :=
  match variant_marker s with
  | Some r => label_ahead r || label_ahead s
  | None => label_ahead s
  end.

(** [^.*\t(?:[A-Z]'*, )?(?P<type>[a-z\-]+),] on a line: the greedy [.*]
    gives up characters from the right, so the last tab that works is
    the one taken. *)
Fixpoint section_start (line : str) : option str :=
  match line with
  | [] => None
  | c :: r =>
      match section_start r with
      | Some w => Some w
      | None => if Ascii.eqb c tab then start_after_tab r else None
      end
  end.

(** The lookahead [(?=^.*\t(?:[A-Z]'*, )?(?:[a-z\-]+))] at the start of
    a line. *)
Fixpoint section_ahead (line : str) : bool :=
  match line with
  | [] => false
  | c :: r => section_ahead r || (Ascii.eqb c tab && ahead_after_tab r)
  end.

(** [(?:.*\n)*?(?=...)] from the end of the label's comma: the lazy
    repetition first finishes the current line, then takes whole lines
    until the lookahead holds at the start of the next one.  [rest] are
    the lines after the current one; the result is the lines taken after
    the current one.  A line can be taken only if a line feed ends it,
    which the last line of the text lacks: without a line passing the
    lookahead there is no match. *)
Fixpoint lazy_lines (rest : list str) : option (list str) :=
  match rest with
  | [] => None
  | l :: rest' =>
      if section_ahead l then Some []
      else (l ::.) <$> lazy_lines rest'
  end.

(** The text of lines that each end with a line feed. *)
Definition unlines (ls : list str) : str :=
  mjoin ((fun l => l ++ [nl]) <$> ls).

(** [re.finditer(section_regex, salami, re.MULTILINE)] over the lines of
    [salami], each match given as [(m.groups()[0], m.group())].  With
    [^] a match starts where a line starts; the scan resumes where the
    previous match ended, which is the start of the line that passed the
    lookahead; [skip] counts the lines still inside the previous
    match. *)
Fixpoint finditer_from (skip : nat) (ls : list str) : list (str * str) :=
  match ls with
  | [] => []
  | l :: rest =>
      match skip with
      | S k => finditer_from k rest
      | O =>
          match section_start l, lazy_lines rest with
          | Some label, Some body =>
              (label, unlines (l :: body)) :: finditer_from (length body) rest
          | _, _ => finditer_from 0 rest
          end
      end
  end.

Definition finditer_sections (salami : str) : list (str * str) :=
  finditer_from 0 (split nl salami).

(** *** [valid_symbol]

    [(?:[A-G][#b]?:\S+)|\*|(?:\&pause)|(?:x\d+)|N] *)

Definition is_root (c : ascii) : bool := in_range 65 71 c.

Definition is_accidental (c : ascii) : bool :=
  Ascii.eqb c "#" || Ascii.eqb c "b".

Definition nonspace (c : ascii) : bool := negb (isspace c).

(** [:\S+] at the head of [s]: the text matched. *)
Definition colon_quality (s : str) : option str :=
  match s with
  | c :: q =>
      if Ascii.eqb c ":" then
        match take_while nonspace q with
        | [] => None
        | body => Some (c :: body)
        end
      else None
  | [] => None
  end.

(** [[A-G][#b]?:\S+] at the head of [s]: the accidental is tried
    first, and left out when the rest fails after it. *)
Definition chord_at (s : str) : option str :=
  match s with
  | c :: s1 =>
      if is_root c then
        let plain := (c ::.) <$> colon_quality s1 in
        match s1 with
        | a :: s2 =>
            if is_accidental a then
              match colon_quality s2 with
              | Some m => Some (c :: a :: m)
              | None => plain
              end
            else plain
        | [] => plain
        end
      else None
  | [] => None
  end.

(** A literal at the head of [s]. *)
Definition literal_at (lit : str) (s : str) : option str :=
  if startswith s lit then Some lit else None.

(** [x\d+] at the head of [s]. *)
Definition repeat_at (s : str) : option str :=
  match s with
  | c :: r =>
      if Ascii.eqb c "x" then
        match take_while isdigit r with
        | [] => None
        | ds => Some (c :: ds)
        end
      else None
  | [] => None
  end.

(** The whole alternation at the head of [s], alternatives in the order
    of the pattern. *)
Definition symbol_at (s : str) : option str :=
  match chord_at s with
  | Some m => Some m
  | None =>
  match literal_at "*" s with
  | Some m => Some m
  | None =>
  match literal_at "&pause" s with
  | Some m => Some m
  | None =>
  match repeat_at s with
  | Some m => Some m
  | None => literal_at "N" s
  end end end end.

(** [valid_symbol.findall(line)]: the matches from left to right, the
    scan resuming after each match; [skip] counts the characters still
    inside the previous match. *)
Fixpoint findall_from (skip : nat) (s : str) : list str :=
  match s with
  | [] => []
  | _ :: r =>
      match skip with
      | S k => findall_from k r
      | O =>
          match symbol_at s with
          | Some m => m :: findall_from (length m - 1) r
          | None => findall_from 0 r
          end
      end
  end.

Definition findall (line : str) : list str := findall_from 0 line.

End Re.

(** ** [McGillBillboard._process_salami] *)

Module Salami.
Import Py Re.

(** What [_process_salami] returns: [(headers, chord_seq, label_seq)]. *)
Record song := Song {
  headers : gmap str str;
  chord_seq : list str;
  label_seq : list str
}.

(** One item [(k, v)] of the dictionary comprehension, [v.strip()]
    applied: [x.lstrip('# ').split(':', maxsplit=1)] has to unpack into
    two values. *)
Definition header_item (x : str) : result (str * str) :=
  match split1 ":" (lstrip "# " x) with
  | [k; v] => Ok (k, strip v)
  | _ => Raise ValueError
  end.

Definition read_headers (fname : str) (lines : list str)
  : result (gmap str str) :=
  let headers := List.filter (fun x => startswith x "#") lines in
  items ← mapM header_item headers;
  Ok (<[("url" : str) := fname]> (dict_of items)).

Definition prefixes : list str :=
  strs ["trans"; "verse"; "chorus"; "prechorus"; "intro"; "instrumental";
        "spoken"].

Definition clean_labels (label : str) : str :=
  let label := remove_char " " (remove_char "-" label) in
  let label :=
    fold_left
      (fun label prefix => if startswith label prefix then prefix else label)
      prefixes label in
  if decide (label = "modulation") then ("keychange" : str) else label.

Definition valid_lines (symbols : list str) : bool :=
  bool_decide (0 < length symbols).

(** [x[:-1] * reps] has the count that the marker gives: [int] and the
    repetition can both raise. *)
Definition resolve_repeats (py : interpreter) (x : list str)
  : result (list str) :=
  final ← last_item x;
  if startswith final "x" then
    reps ← int py (drop 1 final);
    list_mul py (but_last x) reps
  else Ok x.

(** The chords of one section from its lines (source lines 128 to 144
    for one element of [sections]): symbols per line, lines without
    symbol removed, repeats resolved, lines chained. *)
Definition lines_chords (py : interpreter) (lines : list str)
  : result (list str) :=
  let symbols := findall <$> lines in
  let symbols := List.filter valid_lines symbols in
  resolved ← mapM (resolve_repeats py) symbols;
  Ok (mjoin resolved).

(** The same from the text of the section's match, split at line feeds
    (source line 123). *)
Definition section_chords (py : interpreter) (section : str)
  : result (list str) :=
  lines_chords py (split nl section).

(** One turn of the final loop, on [(label_seq, chord_seq)].  The count
    of [[label] * (len(chord_sec) - 1)] is below the length of a list that
    the interpreter holds: it is in the index range, and the copies take
    no more memory than that list. *)
Definition extend (acc : list str * list str) (sec : str * list str)
  : list str * list str :=
  (acc.1 ++ copies [sec.1] (Z.of_nat (length sec.2) - 1)
         ++ [("eos" : str)],
   acc.2 ++ sec.2).

Definition assemble (secs : list (str * list str)) : list str * list str :=
  fold_left extend secs ([], []).

(** [_process_salami(fname)], where [salami] is the text read from the
    file [fname]. *)
Definition process_salami (py : interpreter) (fname salami : str)
  : result song :=
  let lines := split nl salami in
  headers ← read_headers fname lines;
  '(labels, sections) ← unzip2 (finditer_sections salami);
  let labels := clean_labels <$> labels in
  chords ← mapM (section_chords py) sections;
  let lab_n_chords :=
    List.filter (fun x => negb (bool_decide (x.1 = []))) (zip labels chords) in
  '(labels, chords) ← unzip2 lab_n_chords;
  let seqs := assemble (zip labels chords) in
  Ok (Song headers seqs.2 seqs.1).

End Salami.

(** ** [McGillBillboard.preprocess] *)

Module Vocab.
Import Py Salami.

(** The order of Python on strings: by code point, a proper prefix
    first. *)
Fixpoint str_leb (a b : str) : bool :=
  match a, b with
  | [], _ => true
  | _ :: _, [] => false
  | x :: a', y :: b' =>
      if (ord x <? ord y)%N then true
      else if (ord x =? ord y)%N then str_leb a' b'
      else false
  end.

Definition str_le (a b : str) : Prop := str_leb a b.

Global Instance str_le_dec : RelDecision str_le.
Proof. intros a b. unfold str_le. apply _. Defined.

(** [sorted(list(set(xs)))]: the order in which the set hands out its
    elements is not specified; the sort makes the result independent of
    it. *)
Definition sorted_set (xs : list str) : list str :=
  merge_sort str_le (elements (list_to_set xs : gset str)).

(** [{c: i for i, c in enumerate(vocab)}] *)
Definition index_of (vocab : list str) : gmap str nat :=
  dict_of (imap (fun i c => (c, i)) vocab).

(** [[idx[c] for c in seq]] *)
Definition encode (idx : gmap str nat) (seq : list str) : result (list nat) :=
  mapM (fun c => match idx !! c with
                 | Some i => Ok i
                 | None => Raise KeyError
                 end) seq.

Record dataset := Dataset {
  info : list (gmap str str);
  chords : list str;
  labels : list str;
  chord2idx : gmap str nat;
  label2idx : gmap str nat;
  X : list (list nat);
  y : list (list nat)
}.

(** [preprocess], given the sorted paths with the text of each file. *)
Definition preprocess (py : interpreter) (files : list (str * str))
  : result dataset :=
  x ← mapM (fun f => process_salami py f.1 f.2) files;
  if bool_decide (x = []) then Raise ValueError else
  let info := headers <$> x in
  let X := chord_seq <$> x in
  let y := label_seq <$> x in
  let chords := sorted_set (mjoin X) in
  let labels := sorted_set (mjoin y) in
  let chord2idx := index_of chords in
  let label2idx := index_of labels in
  X ← mapM (encode chord2idx) X;
  y ← mapM (encode label2idx) y;
  Ok (Dataset info chords labels chord2idx label2idx X y).

End Vocab.

(** ** [McGillBillboard.__len__], [McGillBillboard.__getitem__] and the
    order of the documents *)

Module Access.
Import Py Salami Vocab.

(** [l[i]] for an integer [i]: a negative index counts from the end, and
    an index out of range raises. *)
Definition list_item {A} (l : list A) (i : Z) : result A :=
  let n := Z.of_nat (length l) in
  let j := if (i <? 0)%Z then (i + n)%Z else i in
  if (j <? 0)%Z then Raise IndexError
  else match l !! Z.to_nat j with
       | Some a => Ok a
       | None => Raise IndexError
       end.

(** [self.X[item], self.y[item]] *)
Definition getitem (d : dataset) (item : Z) : result (list nat * list nat) :=
  x ← list_item (X d) item;
  y ← list_item (y d) item;
  Ok (x, y).

(** [len(self.X)] *)
Definition len (d : dataset) : nat := length (X d).

(** [preprocess] from the paths that [glob.glob] returned, in the order it
    returned them: [sorted] puts them in order (source line 58) before
    the documents are parsed; [read] gives the text of a file. *)
Definition preprocess_found (py : interpreter) (read : str → str)
    (found : list str) : result dataset :=
  preprocess py
    ((fun fname => (fname, read fname)) <$> merge_sort str_le found).

End Access.

Import Py Re Salami Vocab Access.

(** ** Notions used to state the properties *)

(** *** Symbols *)

(** The language of [valid_symbol]: the strings that the pattern matches
    from their first to their last character. *)
Definition is_colon_quality (m : str) : bool :=
  match m with
  | c :: q => Ascii.eqb c ":" && negb (bool_decide (q = [])) && forallb nonspace q
  | [] => false
  end.

Definition is_chord (t : str) : bool :=
  match t with
  | c :: m =>
      is_root c &&
      (is_colon_quality m ||
       match m with
       | a :: m' => is_accidental a && is_colon_quality m'
       | [] => false
       end)
  | [] => false
  end.

Definition is_repeat (t : str) : bool :=
  match t with
  | c :: ds => Ascii.eqb c "x" && negb (bool_decide (ds = [])) && forallb isdigit ds
  | [] => false
  end.

Definition is_symbol (t : str) : bool :=
  is_chord t || bool_decide (t = "*") || bool_decide (t = "&pause")
  || is_repeat t || bool_decide (t = "N").

(** The characters a symbol can start with. *)
Definition is_start (c : ascii) : bool :=
  is_root c || Ascii.eqb c "*" || Ascii.eqb c "&" || Ascii.eqb c "x"
  || Ascii.eqb c "N".

(** [tokenization s toks]: [toks] are, from left to right, the occurrences
    in [s] of symbols that no other occurrence of a symbol contains.  A
    token [t] follows a gap [g]; every occurrence [v] of a symbol that
    starts before the end of [t] lies within [t]; the rest [r] is
    tokenized in the same way; after the last token no symbol occurs. *)
Inductive tokenization : str → list str → Prop :=
| tokenization_done s :
    (∀ u v w, s = u ++ v ++ w → is_symbol v = false) →
    tokenization s []
| tokenization_next g t r toks :
    is_symbol t = true →
    (∀ u v w, g ++ t ++ r = u ++ v ++ w → is_symbol v = true →
       length u < length g + length t →
       length g ≤ length u ∧ length u + length v ≤ length g + length t) →
    tokenization r toks →
    tokenization (g ++ t ++ r) (t :: toks).


(** *** Repeat counts

    What the interpreter needs to resolve a marker with the digits [ds]
    that follows the tokens [toks]. *)




(** *** Sections *)

(** A section found in the lines [ls] of a text: the line [span_start]
    starts it with the label [span_label], and [span_stop] is the first
    later line on which the lookahead of [section_regex] holds. *)
Record span := Span { span_start : nat; span_stop : nat; span_label : str }.

Definition span_lines (ls : list str) (sp : span) : list str :=
  take (span_stop sp - span_start sp) (drop (span_start sp) ls).

Definition is_section (ls : list str) (sp : span) : Prop :=
  (∃ l, ls !! span_start sp = Some l ∧ section_start l = Some (span_label sp))
  ∧ span_start sp < span_stop sp
  ∧ (∃ l, ls !! span_stop sp = Some l ∧ section_ahead l = true)
  ∧ (∀ k l, span_start sp < k < span_stop sp → ls !! k = Some l →
       section_ahead l = false).

Definition shift_span (sp : span) : span :=
  Span (S (span_start sp)) (S (span_stop sp)) (span_label sp).

(** A segmentation that needs no closing line: every line that starts a
    section opens one, which holds the lines after it up to the next line
    that starts a section, or up to the end of the text. *)
Fixpoint lines_to_next_start (rest : list str) : list str :=
  match rest with
  | [] => []
  | l :: rest' =>
      match section_start l with
      | Some _ => []
      | None => l :: lines_to_next_start rest'
      end
  end.

Fixpoint claimed_sections (ls : list str) : list (str * list str) :=
  match ls with
  | [] => []
  | l :: rest =>
      match section_start l with
      | Some label => (label, lines_to_next_start rest) :: claimed_sections rest
      | None => claimed_sections rest
      end
  end.

(** *** Headers *)

(** The key and the value that a header line gives: the line without its
    leading "#" and spaces, cut at its first colon. *)
Definition not_colon (c : ascii) : bool := negb (Ascii.eqb c ":").

Definition header_key (x : str) : str :=
  take_while not_colon (lstrip "# " x).

Definition header_value (x : str) : str :=
  strip (drop 1 (drop_while not_colon (lstrip "# " x))).

(** *** The two sequences *)

(** The end-of-section marker of [label_seq]. *)
Definition eos : str := "eos".

(** The chords of a section.  When [section_chords] raises, the parse
    raises with it and returns no song: the section then stands here
    without chords. *)
Definition section_tokens (py : interpreter) (section : str) : list str :=
  match section_chords py section with
  | Ok toks => toks
  | Raise _ => []
  end.

(** The sections of a text with their normalised label and their chords. *)
Definition labelled_sections (py : interpreter) (salami : str)
  : list (str * list str) :=
  (fun m => (clean_labels m.1, section_tokens py m.2))
    <$> finditer_sections salami.

(** The sections that the filter on the empty label keeps. *)
Definition retained_sections (py : interpreter) (salami : str)
  : list (str * list str) :=
  List.filter (fun x => negb (bool_decide (x.1 = [])))
    (labelled_sections py salami).

(** The entries one section adds to [label_seq]. *)
Definition run (sec : str * list str) : list str :=
  replicate (length sec.2 - 1) sec.1 ++ [eos].

Definition count_eos (l : list str) : nat :=
  length (List.filter (fun x => bool_decide (x = eos)) l).

(** The entries that sections labelled "eos" add to [label_seq] before
    their end-of-section marker. *)
Definition eos_named (secs : list (str * list str)) : nat :=
  sum_list ((fun sec => if bool_decide (sec.1 = eos) then length sec.2 - 1 else 0)
              <$> secs).

(** *** The vocabulary *)

(** The strict order of Python on strings, and the rank of a token: the
    number of tokens of the vocabulary that come strictly before it. *)
Definition str_lt (a b : str) : Prop := str_le a b ∧ a ≠ b.

Definition rank (c : str) (vocab : list str) : nat :=
  length (filter (fun t => str_lt t c) vocab).

(** The songs of a corpus, when every document parses. *)
Definition parse_all (py : interpreter) (files : list (str * str))
  : result (list song) :=
  mapM (fun f => process_salami py f.1 f.2) files.

(** The retained sections without a chord. *)
Definition chordless (secs : list (str * list str)) : list (str * list str) :=
  List.filter (fun sec => bool_decide (sec.2 = [])) secs.

(** [[a-z]] *)
Definition is_lower (c : ascii) : bool := in_range 97 122 c.

(** The tokens that a sequence of indices stands for: [[vocab[i] for i in
    xs]], when every index is in range. *)
Definition decode (vocab : list str) (xs : list nat) : option (list str) :=
  mapM (fun i => vocab !! i) xs.

(** *** Sample texts *)

(** A row is a time stamp, a tab and the annotation; a text is rows joined
    by line feeds. *)
Definition row (time content : str) : str := time ++ tab :: content.

Fixpoint text (rows : list str) : str :=
  match rows with
  | [] => []
  | [r] => r
  | r :: rest => r ++ nl :: text rest
  end.

(** A verse of three lines, the last one repeated, and a chorus of one
    chord. *)
Definition verse_chorus : str :=
  text ["# title: T" : str;
        row "0" "silence";
        row "1" "A, verse, | A:maj |";
        row "2" "| B:min |";
        row "3" "| A:maj | x2";
        row "4" "B, chorus, | C:maj |";
        row "5" "end"].

(** The last section is followed by no further line with a label. *)
Definition unterminated : str :=
  text [row "0" "A, intro, | A:maj |";
        row "1" "B, verse, | B:min |";
        row "2" "| C:maj |"].

(** The first section has a label and no chord. *)
Definition chordless_intro : str :=
  text [row "0" "A, intro,";
        row "1" "B, verse, | A:maj |";
        row "2" "end"].

(** The only section loses its chord to a final "x0". *)
Definition zero_repeat : str :=
  text [row "0" "A, verse, | C:maj | x0";
        row "1" "end"].

(** The only line of the only section ends with a repeat marker of twenty
    digits. *)
Definition huge_repeat : str :=
  text [row "0" "A, verse, | C:maj | x99999999999999999999";
        row "1" "end"].

(** The only section has a label made of a hyphen. *)
Definition hyphen_label : str :=
  text [row "0" "-, | A:maj |";
        row "1" "end"].

(** The only section is labelled "eos". *)
Definition eos_label : str :=
  text [row "0" "eos, | A:maj | B:min |";
        row "1" "end"].

(** A space stands between a header key and the colon. *)
Definition spaced_key : str :=
  text ["# title : T" : str;
        row "0" "A, intro, | A:maj |";
        row "1" "end"].

(** A corpus of two documents. *)
Definition two_songs : list (str * str) :=
  [("a" : str, verse_chorus); ("b" : str, eos_label)].

(** * Properties *)

(** ** Label normalisation *)

(** C5. [clean_labels] deletes every hyphen and space of the raw label:
    the cleaned label is the raw label without these characters, the
    others kept in their order.  The result is then the first prefix of
    trans, verse, chorus, prechorus, intro, instrumental, spoken that the
    cleaned label starts with, if there is one; otherwise "keychange"
    when the cleaned label is "modulation", and the cleaned label itself
    in every other case; it holds no hyphen and no space.  So "chorus-2"
    gives "chorus", "verse" gives "verse", "modulation" gives "keychange"
    and "outro" stays "outro"; "out-ro 2" gives "outro2", and a label
    that starts with one of the seven prefixes, hyphens and spaces apart,
    gives that prefix. *)
Theorem clean_labels_normalises (raw : str) :
  let cleaned := remove_char " " (remove_char "-" raw) in
  clean_labels raw =
    match List.find (startswith cleaned) prefixes with
    | Some prefix => prefix
    | None =>
        if decide (cleaned = "modulation") then ("keychange" : str)
        else cleaned
    end
  ∧ cleaned
    = List.filter (fun c => negb (Ascii.eqb c "-" || Ascii.eqb c " ")) raw
  ∧ (∀ c, c ∈ cleaned ↔ c ∈ raw ∧ c ≠ "-"%char ∧ c ≠ " "%char)
  ∧ ("-"%char ∉ clean_labels raw) ∧ (" "%char ∉ clean_labels raw)
  ∧ prefixes
    = strs ["trans"; "verse"; "chorus"; "prechorus"; "intro"; "instrumental";
            "spoken"]
  ∧ clean_labels "chorus-2" = "chorus"
  ∧ clean_labels "verse" = "verse"
  ∧ clean_labels "modulation" = "keychange"
  ∧ clean_labels "outro" = "outro"
  ∧ clean_labels "out-ro 2" = "outro2"
  ∧ clean_labels "mod-u la-tion" = "keychange"
  ∧ clean_labels "trans-1" = "trans"
  ∧ clean_labels "verse 2" = "verse"
  ∧ clean_labels "pre-chorus" = "prechorus"
  ∧ clean_labels "intro-a" = "intro"
  ∧ clean_labels "instrumental break" = "instrumental"
  ∧ clean_labels "spoken-word" = "spoken".
Proof.
  intros cleaned.
  assert (Hfilter : cleaned
    = List.filter (fun c => negb (Ascii.eqb c "-" || Ascii.eqb c " ")) raw).
  { unfold cleaned, remove_char. induction raw as [|c r IH]; [done|].
    cbn [List.filter].
    destruct (Ascii.eqb c "-") eqn:E1; cbn [negb orb]; [exact IH|].
    cbn [List.filter]. destruct (Ascii.eqb c " ") eqn:E2; cbn [negb];
      [exact IH|by f_equal]. }
  assert (Hin : ∀ c, c ∈ cleaned ↔ c ∈ raw ∧ c ≠ "-"%char ∧ c ≠ " "%char).
  { intros c. rewrite Hfilter, !list_elem_of_In, filter_In.
    rewrite negb_true_iff, orb_false_iff, !Ascii.eqb_neq. done. }
  assert (Heq : clean_labels raw =
    match List.find (startswith cleaned) prefixes with
    | Some prefix => prefix
    | None =>
        if decide (cleaned = "modulation") then ("keychange" : str)
        else cleaned
    end).
  { unfold clean_labels. fold cleaned. generalize cleaned. intros c.
    cbn [prefixes strs fmap list_fmap List.find fold_left].
    repeat match goal with
    | |- context [startswith c ?p] =>
        let E := fresh "E" in
        destruct (startswith c p) eqn:E; [by vm_compute|]
    end.
    reflexivity. }
  assert (Hclean : ("-"%char ∉ clean_labels raw) ∧ (" "%char ∉ clean_labels raw)).
  { rewrite Heq.
    assert (H1 : "-"%char ∉ cleaned) by (rewrite Hin; tauto).
    assert (H2 : " "%char ∉ cleaned) by (rewrite Hin; tauto).
    revert H1 H2. generalize cleaned. intros c H1 H2.
    cbn [prefixes strs fmap list_fmap List.find].
    repeat match goal with
    | |- context [startswith c ?p] =>
        destruct (startswith c p); [split; compute_done|]
    end.
    destruct (decide (c = "modulation")); [split; compute_done|done]. }
  split; [exact Heq|]. split; [exact Hfilter|]. split; [exact Hin|].
  split; [apply Hclean|]. split; [apply Hclean|].
  repeat split; vm_compute; reflexivity.
Qed.

(** ** Python built-ins *)

Lemma eqb_true (a b : ascii) : Ascii.eqb a b = true ↔ a = b.
Proof. apply Ascii.eqb_eq. Qed.

Lemma digit_not_space c : isdigit c = true → isspace c = false.
Proof.
  unfold isdigit, isspace, in_range. intros H.
  apply andb_true_iff in H as [H1 H2].
  apply N.leb_le in H1, H2.
  repeat (apply orb_false_iff; split);
    try apply andb_false_iff; rewrite ?N.leb_gt, ?N.eqb_neq; lia.
Qed.








Lemma int_raise (py : interpreter) (t : str) e :
  int py t = Raise e → e = ValueError.
Proof.
  unfold int. repeat case_match; intros; simplify_eq; done.
Qed.

Lemma last_item_snoc {A} (l : list A) (a : A) : last_item (l ++ [a]) = Ok a.
Proof. unfold last_item. by rewrite last_snoc. Qed.


(** ** The repetition of a list *)


Lemma copies_none {A} (l : list A) (n : Z) :
  (Z.of_nat (length l) * n ≤ 0)%Z → copies l n = [].
Proof.
  intros H. unfold copies. destruct l as [|a l].
  - induction (Z.to_nat n) as [|k IH]; [done|]. exact IH.
  - replace (Z.to_nat n) with 0; [done|]. cbn [length] in H. nia.
Qed.

Lemma list_mul_ok (py : interpreter) {A} (l r : list A) (n : Z) :
  list_mul py l n = Ok r → r = copies l n.
Proof.
  unfold list_mul. destruct (_ || _); [done|]. cbv zeta.
  destruct (Z.leb_spec (Z.of_nat (length l) * n) 0) as [Hz|Hz].
  - intros [= <-]. symmetry. by apply copies_none.
  - destruct (can_allocate py _); [|done]. by intros [= <-].
Qed.

Lemma list_mul_raise (py : interpreter) {A} (l : list A) (n : Z) e :
  list_mul py l n = Raise e → e = OverflowError ∨ e = MemoryError.
Proof.
  unfold list_mul. destruct (_ || _); [intros [= <-]; by left|]. cbv zeta.
  destruct (_ <=? 0)%Z; [done|].
  destruct (can_allocate py _); [done|]. intros [= <-]. by right.
Qed.


(** ** Repeat markers *)








(** ** The chord tokenizer *)

Lemma take_drop_while p (s : str) : take_while p s ++ drop_while p s = s.
Proof. induction s as [|c s IH]; [done|]. cbn. destruct (p c); cbn; by f_equal. Qed.

Lemma take_while_all p (s : str) : forallb p (take_while p s) = true.
Proof. induction s as [|c s IH]; [done|]. cbn. destruct (p c) eqn:E; cbn; by rewrite ?E. Qed.

Lemma take_while_app p (q w : str) :
  forallb p q = true → take_while p (q ++ w) = q ++ take_while p w.
Proof.
  induction q as [|c q IH]; [done|]. cbn. intros [-> Hq]%andb_true_iff.
  by rewrite IH.
Qed.

Lemma drop_while_head p (s : str) c r : drop_while p s = c :: r → p c = false.
Proof.
  induction s as [|d s IH]; [done|]. cbn. destruct (p d) eqn:E; [done|].
  by intros [= -> _].
Qed.

Lemma startswith_app (s p : str) : startswith s p = true ↔ ∃ r, s = p ++ r.
Proof.
  revert s. induction p as [|a p IH]; intros s; cbn.
  - split; [by exists s|done].
  - destruct s as [|b s]; [split; [done|by intros [? [=]]]|].
    rewrite andb_true_iff, eqb_true, IH. split.
    + intros [-> [r ->]]. by exists r.
    + intros [r [= -> ->]]. split; [done|by exists r].
Qed.

(** Facts on character classes, by arithmetic on code points. *)
Ltac classes :=
  unfold is_start, is_root, is_accidental, nonspace, isspace, isdigit,
    is_upper, is_label_char, in_range in *;
  repeat match goal with
  | H : Ascii.eqb _ _ = true |- _ => apply eqb_true in H; subst
  | H : _ && _ = true |- _ => apply andb_true_iff in H as [? ?]
  | H : _ || _ = true |- _ => apply orb_true_iff in H as [?|?]
  | H : (_ <=? _)%N = true |- _ => apply N.leb_le in H
  | H : (_ =? _)%N = true |- _ => apply N.eqb_eq in H
  end.

Lemma root_nonspace c : is_root c = true → nonspace c = true.
Proof.
  intros H. classes. apply negb_true_iff.
  repeat (apply orb_false_iff; split);
    try apply andb_false_iff; rewrite ?N.leb_gt, ?N.eqb_neq; lia.
Qed.

Lemma digit_nonspace c : isdigit c = true → nonspace c = true.
Proof. intros H. unfold nonspace. by rewrite digit_not_space. Qed.

Lemma digit_not_start c : isdigit c = true → is_start c = false.
Proof.
  intros H. unfold is_start, is_root, isdigit, in_range in *.
  apply andb_true_iff in H as [H1 H2]. apply N.leb_le in H1, H2.
  assert (∀ d : ascii, ord c ≠ ord d → Ascii.eqb c d = false) as Hne.
  { intros d Hd. apply Ascii.eqb_neq. by intros ->. }
  rewrite !Hne by (cbn; lia).
  repeat (apply orb_false_iff; split); try done.
  apply andb_false_iff. rewrite !N.leb_gt. lia.
Qed.

Lemma accidental_cases a : is_accidental a = true → a = "#"%char ∨ a = "b"%char.
Proof. intros H. classes; auto. Qed.

Lemma colon_quality_nonspace m :
  is_colon_quality m = true → forallb nonspace m = true.
Proof.
  destruct m as [|c q]; [done|]. cbn.
  intros [[->%eqb_true _]%andb_true_iff Hq]%andb_true_iff. by rewrite Hq.
Qed.

Lemma symbol_nonspace v : is_symbol v = true → forallb nonspace v = true.
Proof.
  unfold is_symbol. rewrite !orb_true_iff, !bool_decide_eq_true.
  intros [[[[H| ->]| ->]|H]| ->]; try by vm_compute.
  - destruct v as [|c m]; [done|]. cbn in H.
    apply andb_true_iff in H as [Hc H]. cbn. rewrite (root_nonspace c Hc). cbn.
    apply orb_true_iff in H as [H|H]; [by apply colon_quality_nonspace|].
    destruct m as [|a m']; [done|].
    apply andb_true_iff in H as [Ha H]. cbn.
    rewrite (colon_quality_nonspace _ H).
    by destruct (accidental_cases a Ha) as [-> | ->].
  - destruct v as [|c ds]; [done|]. cbn in H.
    apply andb_true_iff in H as [[->%eqb_true _]%andb_true_iff Hd].
    cbn. apply forallb_forall. intros d Hin.
    rewrite forallb_forall in Hd. by apply digit_nonspace, Hd.
Qed.

Lemma symbol_head v :
  is_symbol v = true → ∃ c v', v = c :: v' ∧ is_start c = true.
Proof.
  unfold is_symbol. rewrite !orb_true_iff, !bool_decide_eq_true.
  intros [[[[H| ->]| ->]|H]| ->]; try (by eexists _, _).
  - destruct v as [|c m]; [done|]. cbn in H.
    apply andb_true_iff in H as [Hc _]. exists c, m. split; [done|].
    unfold is_start. by rewrite Hc.
  - destruct v as [|c ds]; [done|]. cbn in H.
    apply andb_true_iff in H as [[->%eqb_true _]%andb_true_iff _].
    by eexists _, _.
Qed.

(** What a successful match of [:\S+] looks like. *)
Lemma colon_quality_some (s m : str) :
  colon_quality s = Some m →
  is_colon_quality m = true ∧
  ∃ r, s = m ++ r ∧ ∀ c r', r = c :: r' → isspace c = true.
Proof.
  destruct s as [|c q]; [done|]. cbn.
  destruct (Ascii.eqb c ":") eqn:Ec; [|done].
  destruct (take_while nonspace q) as [|b body] eqn:Et; [done|].
  intros [= <-]. split.
  - pose proof (take_while_all nonspace q) as Hall. rewrite Et in Hall.
    unfold is_colon_quality. by rewrite Ec, Hall.
  - exists (drop_while nonspace q). split.
    + rewrite <- Et. cbn. f_equal. symmetry. apply take_drop_while.
    + intros d r' Hd. apply drop_while_head in Hd.
      by apply negb_false_iff in Hd.
Qed.

Lemma colon_quality_complete (m w : str) :
  is_colon_quality m = true →
  ∃ m', colon_quality (m ++ w) = Some m' ∧ length m ≤ length m'.
Proof.
  destruct m as [|c q]; [done|]. cbn.
  intros [[Ec Hq]%andb_true_iff Hns]%andb_true_iff. rewrite Ec.
  rewrite (take_while_app _ _ _ Hns).
  destruct q as [|b q]; [done|]. cbn.
  eexists. split; [done|]. cbn. rewrite length_app. lia.
Qed.

Lemma chord_at_some (s t : str) :
  chord_at s = Some t →
  is_chord t = true ∧
  ∃ r, s = t ++ r ∧ ∀ c r', r = c :: r' → isspace c = true.
Proof.
  destruct s as [|c s1]; [done|]. cbn.
  destruct (is_root c) eqn:Hc; [|done].
  assert (Hplain : (c ::.) <$> colon_quality s1 = Some t →
    is_chord t = true ∧
    ∃ r, c :: s1 = t ++ r ∧ ∀ c r', r = c :: r' → isspace c = true).
  { destruct (colon_quality s1) as [m|] eqn:Em; [|done]. intros [= <-].
    apply colon_quality_some in Em as [Hm (r & -> & Hr)].
    split; [cbn; by rewrite Hc, Hm|]. by exists r. }
  destruct s1 as [|a s2]; [done|].
  destruct (is_accidental a) eqn:Ha; [|done].
  destruct (colon_quality s2) as [m|] eqn:Em; [|done]. intros [= <-].
  apply colon_quality_some in Em as [Hm (r & -> & Hr)].
  split; [|by exists r].
  cbn. rewrite Hc, Ha, Hm. cbn. by rewrite orb_true_r.
Qed.

Lemma chord_at_complete (v w : str) :
  is_chord v = true →
  ∃ t, chord_at (v ++ w) = Some t ∧ length v ≤ length t.
Proof.
  destruct v as [|c m]; [done|]. cbn.
  intros [Hc H]%andb_true_iff. rewrite Hc.
  apply orb_true_iff in H as [H|H].
  - destruct (colon_quality_complete m w H) as (m' & Em & Hlen).
    rewrite Em. destruct m as [|a m2]; [done|]. cbn.
    assert (is_accidental a = false) as ->.
    { cbn in H. apply andb_true_iff in H as [[->%eqb_true _]%andb_true_iff _].
      done. }
    eexists. split; [done|]. cbn in *. lia.
  - destruct m as [|a m2]; [done|]. cbn.
    apply andb_true_iff in H as [Ha H]. rewrite Ha.
    destruct (colon_quality_complete m2 w H) as (m' & Em & Hlen).
    rewrite Em. eexists. split; [done|]. cbn. lia.
Qed.

Lemma repeat_at_some (s t : str) :
  repeat_at s = Some t → is_repeat t = true ∧ ∃ r, s = t ++ r.
Proof.
  destruct s as [|c q]; [done|]. cbn.
  destruct (Ascii.eqb c "x") eqn:Ec; [|done].
  destruct (take_while isdigit q) as [|b body] eqn:Et; [done|].
  intros [= <-]. split.
  - pose proof (take_while_all isdigit q) as Hall. rewrite Et in Hall.
    unfold is_repeat. by rewrite Ec, Hall.
  - exists (drop_while isdigit q). rewrite <- Et. cbn. f_equal.
    symmetry. apply take_drop_while.
Qed.

Lemma literal_at_some (lit s t : str) :
  literal_at lit s = Some t → t = lit ∧ ∃ r, s = t ++ r.
Proof.
  unfold literal_at. destruct (startswith s lit) eqn:E; [|done].
  intros [= <-]. split; [done|]. by apply startswith_app.
Qed.

Lemma is_symbol_cases v :
  is_symbol v = true ↔
  is_chord v = true ∨ v = "*" ∨ v = "&pause" ∨ is_repeat v = true ∨ v = "N".
Proof.
  unfold is_symbol. rewrite !orb_true_iff, !bool_decide_eq_true. tauto.
Qed.

(** A match of the alternation is a symbol at the head of the text; either
    white space (or nothing) follows it, or no character after its first
    can start a symbol. *)
Lemma symbol_at_some (s t : str) :
  symbol_at s = Some t →
  is_symbol t = true ∧
  ∃ r, s = t ++ r ∧
    ((∀ c r', r = c :: r' → isspace c = true) ∨
     (∀ i c, 0 < i → t !! i = Some c → is_start c = false)).
Proof.
  unfold symbol_at.
  destruct (chord_at s) as [m|] eqn:E1.
  { intros [= <-]. apply chord_at_some in E1 as [Hm (r & -> & Hr)].
    split; [apply is_symbol_cases; auto|]. exists r. auto. }
  destruct (literal_at "*" s) as [m|] eqn:E2.
  { intros [= <-]. apply literal_at_some in E2 as [-> [r ->]].
    split; [done|]. exists r. split; [done|]. right.
    intros [|i] c ? Hi; [lia|done]. }
  destruct (literal_at "&pause" s) as [m|] eqn:E3.
  { intros [= <-]. apply literal_at_some in E3 as [-> [r ->]].
    split; [done|]. exists r. split; [done|]. right.
    intros i c ? Hi. do 6 (destruct i as [|i]; [try lia; by injection Hi as <-|]).
    done. }
  destruct (repeat_at s) as [m|] eqn:E4.
  { intros [= <-]. apply repeat_at_some in E4 as [Hm [r ->]].
    split; [apply is_symbol_cases; auto|]. exists r. split; [done|]. right.
    destruct m as [|x ds]; [done|]. cbn in Hm.
    apply andb_true_iff in Hm as [_ Hd]. rewrite forallb_forall in Hd.
    intros [|i] c ? Hi; [lia|]. cbn in Hi.
    apply digit_not_start, Hd. apply list_elem_of_In.
    by eapply list_elem_of_lookup_2. }
  intros E5. apply literal_at_some in E5 as [-> [r ->]].
  split; [done|]. exists r. split; [done|]. right.
  intros [|i] c ? Hi; [lia|done].
Qed.

(** Where a symbol starts, the alternation matches, and matches at least
    as much. *)
Lemma symbol_at_complete (v w : str) :
  is_symbol v = true →
  ∃ t, symbol_at (v ++ w) = Some t ∧ length v ≤ length t.
Proof.
  intros [H|[->|[->|[H| ->]]]]%is_symbol_cases.
  - destruct (chord_at_complete v w H) as (t & Et & Hlen).
    exists t. unfold symbol_at. by rewrite Et.
  - by exists ("*" : str).
  - by exists ("&pause" : str).
  - destruct v as [|c ds]; [done|]. cbn in H.
    apply andb_true_iff in H as [[->%eqb_true Hne]%andb_true_iff Hd].
    destruct ds as [|d ds]; [done|].
    unfold symbol_at. cbn [app chord_at]. 
    change (is_root "x") with false. cbn [literal_at startswith].
    cbn [String.list_ascii_of_string Ascii.eqb Bool.eqb andb].
    cbn [repeat_at]. change (Ascii.eqb "x" "x") with true. cbv iota.
    change (d :: ds ++ w) with ((d :: ds) ++ w).
    rewrite (take_while_app _ _ _ Hd). cbn.
    eexists. split; [done|]. cbn. rewrite length_app. lia.
  - by exists ("N" : str).
Qed.

Lemma symbol_nonempty v : is_symbol v = true → v ≠ [].
Proof. intros (c & v' & -> & _)%symbol_head. done. Qed.

(** [findall] one step at a time. *)
Lemma findall_from_drop (k : nat) (s : str) :
  findall_from k s = findall_from 0 (drop k s).
Proof.
  revert k. induction s as [|c s IH]; intros [|k]; try done.
  cbn [findall_from drop]. apply IH.
Qed.

Lemma findall_cons c (s : str) :
  findall (c :: s) =
    match symbol_at (c :: s) with
    | Some m => m :: findall (drop (length m) (c :: s))
    | None => findall s
    end.
Proof.
  unfold findall. cbn [findall_from].
  destruct (symbol_at (c :: s)) as [m|] eqn:E; [|done].
  f_equal. rewrite findall_from_drop.
  apply symbol_at_some in E as [Hm _].
  apply symbol_head in Hm as (c' & m' & -> & _). cbn. by rewrite Nat.sub_0_r.
Qed.

(** An occurrence of a symbol that starts inside a match, after its first
    character, ends inside it. *)
Lemma symbol_inside_match (s t u v w : str) :
  symbol_at s = Some t → s = u ++ v ++ w → is_symbol v = true →
  0 < length u < length t → length u + length v ≤ length t.
Proof.
  intros (Ht & r & -> & Hr)%symbol_at_some Hs Hv [Hu0 Hut].
  destruct Hr as [Hr|Hr].
  - destruct (decide (length u + length v ≤ length t)) as [|Hgt]; [done|].
    exfalso.
    assert (Hlen : length t + length r = length u + length v + length w).
    { rewrite <- !length_app. by rewrite Hs, <- app_assoc. }
    destruct r as [|c r']; [cbn in Hlen; lia|].
    specialize (Hr c r' eq_refl).
    assert (Hl : (t ++ c :: r') !! length t = Some c).
    { by rewrite lookup_app_r, Nat.sub_diag. }
    rewrite Hs in Hl. rewrite lookup_app_r in Hl by lia.
    rewrite lookup_app_l in Hl by lia.
    apply symbol_nonspace in Hv. rewrite forallb_forall in Hv.
    apply list_elem_of_lookup_2, list_elem_of_In, Hv in Hl.
    unfold nonspace in Hl. by rewrite Hr in Hl.
  - apply symbol_head in Hv as (c & v' & -> & Hc).
    assert (Hl : (u ++ (c :: v') ++ w) !! length u = Some c).
    { by rewrite lookup_app_r, Nat.sub_diag. }
    rewrite <- Hs in Hl. rewrite lookup_app_l in Hl by lia.
    by rewrite (Hr _ _ Hu0 Hl) in Hc.
Qed.

Lemma tokenization_skip c (s : str) toks :
  symbol_at (c :: s) = None → tokenization s toks → tokenization (c :: s) toks.
Proof.
  intros Hnone Htok.
  assert (Hhead : ∀ v w, c :: s = v ++ w → is_symbol v = false).
  { intros v w Hs. destruct (is_symbol v) eqn:Hv; [|done].
    destruct (symbol_at_complete v w Hv) as (t & Et & _).
    rewrite <- Hs in Et. congruence. }
  inversion Htok as [s' Hno|g t r toks' Ht Hin Hrest]; subst.
  - constructor. intros [|c' u] v w Hs; [by eapply Hhead|].
    injection Hs as -> ->. by eapply Hno.
  - change (c :: g ++ t ++ r) with ((c :: g) ++ t ++ r).
    constructor; [done| |done].
    intros [|c' u] v w Hs Hv Hlt.
    + rewrite (Hhead v w) in Hv; done.
    + injection Hs as -> Hs. cbn in *.
      destruct (Hin u v w Hs Hv); lia.
Qed.

Lemma findall_tokenization (line : str) : tokenization line (findall line).
Proof.
  remember (length line) as n eqn:Hn.
  revert line Hn. induction (lt_wf n) as [n _ IH]. intros line ->.
  destruct line as [|c s].
  { constructor. intros u v w Hs.
    symmetry in Hs. apply app_eq_nil in Hs as [_ [-> _]%app_eq_nil]. done. }
  rewrite findall_cons.
  destruct (symbol_at (c :: s)) as [t|] eqn:Et.
  - pose proof Et as (Ht & r & Hs & _)%symbol_at_some.
    rewrite Hs, drop_app_length.
    pose proof (symbol_nonempty t Ht) as Hne.
    apply (tokenization_next [] t r).
    + done.
    + intros u v w Huvw Hv Hlt. cbn in *. split; [lia|].
      destruct u as [|c' u].
      * destruct (symbol_at_complete v w Hv) as (t' & Et' & Hlen).
        cbn in Huvw. rewrite <- Huvw, <- Hs, Et in Et'.
        injection Et' as <-. cbn. lia.
      * rewrite <- Hs in Huvw.
        eapply symbol_inside_match; eauto. cbn in *. lia.
    + eapply IH; [|done]. rewrite Hs, length_app.
      destruct t; [done|cbn; lia].
  - apply tokenization_skip; [done|]. eapply IH; [|done]. cbn. lia.
Qed.

(** C7. [findall] returns a token list for every line (it is a total
    function, there is no failure to model), and the tokens are, from left
    to right, exactly the occurrences of symbols of the grammar that no
    other occurrence contains: each token is a symbol, nothing before it
    or overlapping it is one, and everything else is skipped.  A line
    without any symbol adds nothing to the chords of its section. *)
Theorem findall_maximal_symbols (py : interpreter)
    (line : str) (before after : list str) :
  tokenization line (findall line)
  ∧ (findall line = [] →
     lines_chords py (before ++ line :: after) = lines_chords py (before ++ after)).
Proof.
  split; [apply findall_tokenization|].
  intros Hnone. unfold lines_chords.
  rewrite !fmap_app, fmap_cons, Hnone, !List.filter_app. done.
Qed.

Lemma findall_maximal_symbols_witness :
  findall "0.0 (spoken)" = []
  ∧ lines_chords cpython (strs ["| A:maj |"; "0.0 (spoken)"; "| D:min |"])
    = lines_chords cpython (strs ["| A:maj |"; "| D:min |"]).
Proof.
  split; [reflexivity|].
  apply (findall_maximal_symbols cpython "0.0 (spoken)"
           (strs ["| A:maj |"]) (strs ["| D:min |"])).
  reflexivity.
Defined.

(** ** The section segmenter *)

Lemma label_comma_ahead (s w : str) : label_comma s = Some w → label_ahead s = true.
Proof.
  unfold label_comma, label_ahead. destruct s as [|c s]; [done|]. cbn.
  by destruct (is_label_char c).
Qed.

Lemma start_after_tab_ahead (s w : str) :
  start_after_tab s = Some w → ahead_after_tab s = true.
Proof.
  unfold start_after_tab, ahead_after_tab.
  destruct (variant_marker s) as [r|].
  - destruct (label_comma r) as [w'|] eqn:E.
    + intros _. by rewrite (label_comma_ahead r w' E).
    + intros H. rewrite (label_comma_ahead s w H). apply orb_true_r.
  - apply label_comma_ahead.
Qed.

(** A line that starts a section passes the lookahead. *)
Lemma section_start_ahead (l w : str) :
  section_start l = Some w → section_ahead l = true.
Proof.
  induction l as [|c r IH]; [done|]. cbn.
  destruct (section_start r) as [w'|].
  - intros H. by rewrite IH.
  - destruct (Ascii.eqb c tab); [|done]. intros H.
    rewrite (start_after_tab_ahead r w H). apply orb_true_r.
Qed.

Lemma lazy_lines_some (rest body : list str) :
  lazy_lines rest = Some body →
  body = take (length body) rest
  ∧ (∃ l, rest !! length body = Some l ∧ section_ahead l = true)
  ∧ (∀ k l, k < length body → rest !! k = Some l → section_ahead l = false).
Proof.
  revert body. induction rest as [|l rest IH]; intros body; [done|]. cbn.
  destruct (section_ahead l) eqn:El.
  - intros [= <-]. cbn. split; [done|]. split; [by exists l|]. intros; lia.
  - destruct (lazy_lines rest) as [body'|]; [|done]. intros [= <-].
    destruct (IH body' eq_refl) as (Ht & Hl & Hk). cbn.
    split; [by f_equal|]. split; [done|].
    intros [|k] l' Hlt Hl'; cbn in Hl'; [congruence|]. eapply Hk; [|done]. lia.
Qed.

Lemma lazy_lines_first (rest : list str) (n : nat) (l : str) :
  rest !! n = Some l → section_ahead l = true →
  (∀ k l', k < n → rest !! k = Some l' → section_ahead l' = false) →
  lazy_lines rest = Some (take n rest).
Proof.
  revert n. induction rest as [|l0 rest IH]; intros n Hn Hl Hk; [done|].
  destruct n as [|n]; cbn in Hn.
  - injection Hn as ->. cbn. by rewrite Hl.
  - cbn. rewrite (Hk 0 l0) by (done || lia).
    rewrite (IH n Hn Hl); [done|].
    intros k l' Hlt Hl'. apply (Hk (S k) l'); [lia|done].
Qed.

(** Resuming after a match: the lines inside it do not pass the lookahead,
    so none of them starts a match. *)
Lemma finditer_from_skip (n : nat) (rest : list str) :
  (∀ k l, k < n → rest !! k = Some l → section_ahead l = false) →
  finditer_from n rest = finditer_from 0 rest.
Proof.
  revert n. induction rest as [|l rest IH]; intros [|n] Hk; try done.
  cbn [finditer_from]. rewrite IH.
  - destruct (section_start l) as [w|] eqn:E; [|done].
    apply section_start_ahead in E. rewrite (Hk 0 l) in E by (done || lia).
    done.
  - intros k l' Hlt Hl'. apply (Hk (S k) l'); [lia|done].
Qed.

Lemma finditer_from_cons (l : str) (rest : list str) :
  finditer_from 0 (l :: rest) =
    match section_start l, lazy_lines rest with
    | Some label, Some body =>
        (label, unlines (l :: body)) :: finditer_from 0 rest
    | _, _ => finditer_from 0 rest
    end.
Proof.
  cbn [finditer_from]. destruct (section_start l) as [label|]; [|done].
  destruct (lazy_lines rest) as [body|] eqn:E; [|done].
  f_equal. apply finditer_from_skip.
  by apply lazy_lines_some in E as (_ & _ & Hk).
Qed.

Lemma is_section_shift (l : str) (rest : list str) (sp : span) :
  is_section (l :: rest) (shift_span sp) ↔ is_section rest sp.
Proof.
  unfold is_section. destruct sp as [i j w]. cbn. split.
  - intros (H1 & H2 & H3 & H4). repeat split; [done|lia|done|].
    intros k l' Hk Hl'. apply (H4 (S k) l'); [lia|done].
  - intros (H1 & H2 & H3 & H4). repeat split; [done|lia|done|].
    intros [|k] l' Hk Hl'; [lia|]. apply (H4 k l'); [lia|done].
Qed.

Lemma is_section_head (l : str) (rest : list str) (sp : span) :
  is_section (l :: rest) sp →
  span_start sp = 0 ∧ section_start l = Some (span_label sp)
    ∧ lazy_lines rest = Some (take (span_stop sp - 1) rest)
    ∧ span_stop sp = S (length (take (span_stop sp - 1) rest))
  ∨ ∃ sp', sp = shift_span sp' ∧ is_section rest sp'.
Proof.
  destruct sp as [[|i] j w].
  - intros ((l0 & [= <-] & Hw) & Hlt & (lj & Hj & Haj) & Hk). cbn in *.
    left. destruct j as [|j]; [lia|]. cbn in Hj. cbn.
    rewrite Nat.sub_0_r. split; [done|]. split; [done|]. split.
    + apply (lazy_lines_first rest j lj Hj Haj).
      intros k l' Hlt' Hl'. apply (Hk (S k) l'); [lia|done].
    + rewrite length_take. apply lookup_lt_Some in Hj. lia.
  - intros H. right. destruct j as [|j].
    { destruct H as (_ & Hlt & _). cbn in Hlt. lia. }
    exists (Span i j w). split; [done|].
    by apply (is_section_shift l rest (Span i j w)).
Qed.

Lemma finditer_from_spans (ls : list str) :
  ∃ spans : list span,
    finditer_from 0 ls
      = (fun sp => (span_label sp, unlines (span_lines ls sp))) <$> spans
    ∧ (∀ sp, sp ∈ spans ↔ is_section ls sp)
    ∧ StronglySorted (fun a b => span_stop a ≤ span_start b) spans.
Proof.
  induction ls as [|l rest (spans & Heq & Hiff & Hsorted)].
  { exists []. split; [done|]. split; [|constructor].
    intros sp. split; [by intros ?%elem_of_nil|].
    by intros ((l & Hl & _) & _). }
  assert (Hshift_eq : finditer_from 0 rest
    = (fun sp => (span_label sp, unlines (span_lines (l :: rest) sp)))
        <$> (shift_span <$> spans)).
  { rewrite Heq, <- list_fmap_compose. apply list_fmap_ext.
    intros _ [i j w] _. cbn. unfold span_lines. by cbn. }
  assert (Hshift_sorted :
    StronglySorted (fun a b => span_stop a ≤ span_start b) (shift_span <$> spans)).
  { clear -Hsorted. induction Hsorted as [|sp spans Hs IH Hall]; [constructor|].
    cbn. constructor; [done|]. rewrite Forall_fmap.
    eapply Forall_impl; [done|]. intros sp'. cbn. lia. }
  assert (Hshift_iff : ∀ sp, sp ∈ shift_span <$> spans ↔
    ∃ sp', sp = shift_span sp' ∧ is_section rest sp').
  { intros sp. rewrite list_elem_of_fmap. by setoid_rewrite Hiff. }
  rewrite finditer_from_cons.
  destruct (section_start l) as [label|] eqn:El;
    [destruct (lazy_lines rest) as [body|] eqn:Eb|].
  - pose proof Eb as (Hbody & (lj & Hj & Haj) & Hk)%lazy_lines_some.
    exists (Span 0 (S (length body)) label :: (shift_span <$> spans)).
    split; [|split].
    + cbn [fmap list_fmap]. f_equal; [|done].
      unfold span_lines. cbn. by rewrite <- Hbody.
    + intros sp. rewrite elem_of_cons, Hshift_iff. split.
      * intros [->|(sp' & -> & Hsp')]; [|by apply is_section_shift].
        repeat split; cbn; [by exists l|lia|by exists lj|].
        intros [|k] l' Hlt Hl'; [lia|]. apply (Hk k l'); [lia|done].
      * intros [(H0 & Hw & Hlazy & Hstop)|Hs]%is_section_head; [|by right].
        left. destruct sp as [i j w]. cbn in *. subst i.
        rewrite Hw in El. injection El as ->.
        rewrite Hlazy in Eb. injection Eb as Eb. rewrite <- Eb.
        f_equal. exact Hstop.
    + constructor; [done|]. apply Forall_forall. intros sp Hsp.
      apply Hshift_iff in Hsp as (sp' & -> & ((l' & Hl' & Hw') & _)).
      cbn. apply section_start_ahead in Hw'.
      destruct (decide (span_start sp' < length body)) as [Hlt|]; [|lia].
      rewrite (Hk _ _ Hlt Hl') in Hw'. done.
  - exists (shift_span <$> spans). split; [done|]. split; [|done].
    intros sp. rewrite Hshift_iff. split.
    + intros (sp' & -> & Hsp'). by apply is_section_shift.
    + intros [(H0 & Hw & Hlazy & Hstop)|Hs]%is_section_head; [|done].
      congruence.
  - exists (shift_span <$> spans). split; [done|]. split; [|done].
    intros sp. rewrite Hshift_iff. split.
    + intros (sp' & -> & Hsp'). by apply is_section_shift.
    + intros [(H0 & Hw & Hlazy & Hstop)|Hs]%is_section_head; [|done].
      congruence.
Qed.

Lemma split_no_nl (s : str) : Forall (fun l => nl ∉ l) (split nl s).
Proof.
  induction s as [|c s IH]; cbn [split].
  - constructor; [|done]. apply not_elem_of_nil.
  - destruct (Ascii.eqb c nl) eqn:E.
    + constructor; [apply not_elem_of_nil|done].
    + destruct (split nl s) as [|h t].
      * constructor; [|done]. apply Ascii.eqb_neq in E.
        intros [?|[]%elem_of_nil]%elem_of_cons. done.
      * inversion IH as [|? ? Hh Ht]; subst. constructor; [|done].
        apply Ascii.eqb_neq in E. intros [?|?]%elem_of_cons; done.
Qed.

Lemma split_app_nl (l rest : str) :
  nl ∉ l → split nl (l ++ nl :: rest) = l :: split nl rest.
Proof.
  induction l as [|c l IH]; intros Hl; cbn [split app].
  - by rewrite Ascii.eqb_refl.
  - apply not_elem_of_cons in Hl as [Hc Hl].
    assert (Ascii.eqb c nl = false) as -> by (apply Ascii.eqb_neq; congruence).
    by rewrite (IH Hl).
Qed.

(** The text of a match splits back into its lines and an empty last
    piece. *)
Lemma split_unlines (ls : list str) :
  Forall (fun l => nl ∉ l) ls → split nl (unlines ls) = ls ++ [[]].
Proof.
  induction 1 as [|l ls Hl _ IH]; [done|].
  change (unlines (l :: ls)) with ((l ++ [nl]) ++ unlines ls).
  rewrite <- app_assoc. cbn [app].
  by rewrite (split_app_nl _ _ Hl), IH.
Qed.

(** C3, as the code has it.  The sections that [finditer] returns are
    exactly the spans of the text that start at a section-starting line
    and stop at the first later line passing the lookahead, a line with,
    after a tab and an optional variant marker, a lower-case letter or a
    hyphen, followed by a comma or not; a section-starting line with no
    such line after it gives no section.  A section's text holds its
    starting line and the lines up to the stopping line, excluded; the
    sections come in the order of the text and do not overlap. *)
Theorem finditer_sections_spans (salami : str) :
  let ls := split nl salami in
  ∃ spans : list span,
    finditer_sections salami
      = (fun sp => (span_label sp, unlines (span_lines ls sp))) <$> spans
    ∧ (∀ sp, sp ∈ spans ↔ is_section ls sp)
    ∧ StronglySorted (fun a b => span_stop a ≤ span_start b) spans
    ∧ (∀ sp, split nl (unlines (span_lines ls sp)) = span_lines ls sp ++ [[]]).
Proof.
  intros ls. destruct (finditer_from_spans ls) as (spans & Heq & Hiff & Hs).
  exists spans. split; [done|]. split; [done|]. split; [done|].
  intros sp. apply split_unlines. unfold span_lines.
  apply Forall_take, Forall_drop, split_no_nl.
Qed.

(** C3 as stated fails: in [unterminated] the line of "verse" starts a
    section that reaches the end of the text, and [finditer] does not
    return it. *)
Lemma final_section_not_returned :
  finditer_sections unterminated
    = [("intro" : str, row "0" "A, intro, | A:maj |" ++ [nl])]
  ∧ claimed_sections (split nl unterminated)
    = [("intro" : str, []); ("verse" : str, [row "2" "| C:maj |"])]
  ∧ (finditer_sections unterminated).*1
    ≠ (claimed_sections (split nl unterminated)).*1.
Proof. by vm_compute. Qed.

(** ** The whole parse *)

Lemma tokenization_symbols (s : str) (toks : list str) :
  tokenization s toks → Forall (fun t => is_symbol t = true) toks.
Proof. induction 1; by constructor. Qed.

Lemma findall_symbols (line : str) :
  Forall (fun t => is_symbol t = true) (findall line).
Proof. eapply tokenization_symbols, findall_tokenization. Qed.

(** A symbol that starts with "x" is a repeat marker. *)
Lemma symbol_x_repeat (t : str) :
  is_symbol t = true → startswith t "x" = true →
  ∃ ds, t = "x"%char :: ds ∧ ds ≠ [] ∧ forallb isdigit ds = true.
Proof.
  intros Ht [r ->]%startswith_app.
  apply is_symbol_cases in Ht as [H|[H|[H|[H|H]]]]; try done.
  cbn in H. apply andb_true_iff in H as [Hne Hd].
  exists r. split; [done|]. split; [|done].
  apply negb_true_iff, bool_decide_eq_false in Hne. done.
Qed.

(** [mapM] on [result]: every call returns, or the first one that raises
    decides. *)
Lemma mapM_result_Forall2 {A B} (f : A → result B) (l : list A) (rs : list B) :
  mapM f l = Ok rs → Forall2 (fun a r => f a = Ok r) l rs.
Proof.
  revert rs. induction l as [|a l IH]; intros rs.
  { intros [= <-]. constructor. }
  cbn [mapM]. destruct (f a) as [b|] eqn:Ea; [|done]. cbn [mbind result_bind].
  destruct (mapM f l) as [bs|]; [|done]. cbn. intros [= <-].
  constructor; [done|by apply IH].
Qed.

Lemma mapM_result_raise {A B} (f : A → result B) (l : list A) e :
  mapM f l = Raise e → ∃ a, a ∈ l ∧ f a = Raise e.
Proof.
  induction l as [|a l IH]; [done|]. cbn [mapM].
  destruct (f a) as [b|e'] eqn:Ea.
  - cbn [mbind result_bind]. destruct (mapM f l) as [bs|e'']; [done|].
    cbn. intros [= <-]. destruct (IH eq_refl) as (a' & Ha' & Hf).
    exists a'. split; [by right|done].
  - cbn. intros [= <-]. exists a. split; [by left|done].
Qed.


(** [resolve_repeats] returns tokens of the list it is given. *)
Lemma resolve_repeats_subset (py : interpreter) (x r : list str) (t : str) :
  resolve_repeats py x = Ok r → t ∈ r → t ∈ x.
Proof.
  unfold resolve_repeats, last_item.
  destruct (last x) as [final|] eqn:Elast; [|done]. cbn [mbind result_bind].
  destruct (startswith final "x"); [|by intros [= <-]].
  destruct (int py (drop 1 final)) as [reps|]; [|done]. cbn [mbind result_bind].
  intros ->%list_mul_ok.
  unfold copies. intros (l & Ht & [-> _]%elem_of_replicate)%list_elem_of_join.
  unfold but_last in Ht. destruct x as [|a x] using rev_ind; [done|].
  rewrite removelast_last in Ht. apply elem_of_app. by left.
Qed.

(** What [resolve_repeats] raises: [IndexError] on the empty list, and on
    another list what [int] and the repetition raise. *)
Lemma resolve_repeats_raise (py : interpreter) (x : list str) e :
  resolve_repeats py x = Raise e →
  (e = IndexError ∧ x = [])
  ∨ (x ≠ [] ∧ (e = ValueError ∨ e = OverflowError ∨ e = MemoryError)).
Proof.
  destruct x as [|a x _] using rev_ind.
  { intros [= <-]. by left. }
  intros H. right. split; [by destruct x|]. revert H.
  unfold resolve_repeats. rewrite last_item_snoc. cbn [mbind result_bind].
  destruct (startswith a "x"); [|done].
  destruct (int py (drop 1 a)) as [reps|e'] eqn:E; cbn [mbind result_bind].
  - intros [->| ->]%list_mul_raise; auto.
  - intros [= <-]. apply int_raise in E as ->. auto.
Qed.

(** On the tokens of a line with at least one symbol, [resolve_repeats]
    raises for a final repeat marker beyond the limits of the interpreter,
    and for nothing else. *)
Lemma lines_chords_raise (py : interpreter) (lines : list str) e :
  lines_chords py lines = Raise e →
  e = ValueError ∨ e = OverflowError ∨ e = MemoryError.
Proof.
  unfold lines_chords.
  destruct (mapM (resolve_repeats py) _) as [rs|e'] eqn:E; [done|].
  cbn. intros [= <-].
  apply mapM_result_raise in E as (x & Hx & Hr).
  apply list_elem_of_In, filter_In in Hx as [_ Hv].
  apply resolve_repeats_raise in Hr as [[_ ->]|[_ Hr]]; [|done].
  by vm_compute in Hv.
Qed.

Lemma lines_chords_elem (py : interpreter) (lines toks : list str) (t : str) :
  lines_chords py lines = Ok toks → t ∈ toks →
  ∃ l, l ∈ lines ∧ t ∈ findall l.
Proof.
  unfold lines_chords.
  destruct (mapM (resolve_repeats py) _) as [rs|] eqn:E; [|done].
  cbn. intros [= <-] (r & Ht & Hr)%list_elem_of_join.
  apply mapM_result_Forall2 in E.
  apply list_elem_of_lookup in Hr as [i Hi].
  destruct (Forall2_lookup_r _ _ _ _ _ E Hi) as (x & Hx & Hres).
  apply list_elem_of_lookup_2, list_elem_of_In, filter_In in Hx as [Hx _].
  apply list_elem_of_In, list_elem_of_fmap in Hx as (l & -> & Hl).
  exists l. split; [done|]. by eapply resolve_repeats_subset.
Qed.

Lemma section_tokens_elem (py : interpreter) (section t : str) :
  t ∈ section_tokens py section →
  ∃ l, l ∈ split nl section ∧ t ∈ findall l.
Proof.
  unfold section_tokens, section_chords.
  destruct (lines_chords py (split nl section)) as [toks|] eqn:E.
  - by apply (lines_chords_elem py).
  - by intros ?%elem_of_nil.
Qed.

(** When the chords of every section are defined, they are the
    [section_tokens]. *)
Lemma mapM_section_chords (py : interpreter) (sections : list str)
    (chords : list (list str)) :
  mapM (section_chords py) sections = Ok chords →
  chords = section_tokens py <$> sections.
Proof.
  intros H%mapM_result_Forall2.
  induction H as [|x c xs cs Hx _ IH]; [done|].
  cbn. unfold section_tokens at 1. by rewrite Hx, IH.
Qed.

Lemma copies_single {A} (a : A) (k : nat) :
  copies [a] (Z.of_nat k - 1) = replicate (k - 1) a.
Proof.
  unfold copies. replace (Z.to_nat (Z.of_nat k - 1)) with (k - 1) by lia.
  induction (k - 1) as [|n IH]; [done|]. cbn. f_equal. exact IH.
Qed.

Lemma extend_run (acc : list str * list str) (sec : str * list str) :
  extend acc sec = (acc.1 ++ run sec, acc.2 ++ sec.2).
Proof. unfold extend, run. by rewrite copies_single. Qed.

(** The loop that builds the two sequences, section by section. *)
Lemma assemble_runs (secs : list (str * list str)) :
  assemble secs = (mjoin (run <$> secs), mjoin secs.*2).
Proof.
  unfold assemble.
  enough (H : ∀ acc, fold_left extend secs acc
    = (acc.1 ++ mjoin (run <$> secs), acc.2 ++ mjoin secs.*2)) by apply H.
  induction secs as [|sec secs IH]; intros [a b]; cbn [fold_left].
  - cbn. by rewrite !app_nil_r.
  - rewrite IH, extend_run. cbn. by rewrite <- !app_assoc.
Qed.

Lemma zip_fst_snd {A B} (l : list (A * B)) : zip l.*1 l.*2 = l.
Proof. induction l as [|[a b] l IH]; [done|]. cbn. by rewrite IH. Qed.

(** [_process_salami] in one equation: the headers are read, the chords
    of every section are resolved, and the song is made of the retained
    sections, of which there must be one. *)
Lemma process_salami_eq (py : interpreter) (fname salami : str) :
  process_salami py fname salami =
    match read_headers fname (split nl salami) with
    | Raise e => Raise e
    | Ok h =>
        match mapM (section_chords py) (finditer_sections salami).*2 with
        | Raise e => Raise e
        | Ok _ =>
            match retained_sections py salami with
            | [] => Raise ValueError
            | r => Ok (Song h (mjoin r.*2) (mjoin (run <$> r)))
            end
        end
    end.
Proof.
  unfold process_salami, retained_sections, labelled_sections.
  destruct (read_headers fname (split nl salami)) as [h|e]; [|done].
  cbn [mbind result_bind].
  destruct (finditer_sections salami) as [|m ms]; [done|].
  cbn [unzip2 mbind result_bind].
  destruct (mapM (section_chords py) (m :: ms).*2) as [chords|e] eqn:E; [|done].
  apply mapM_section_chords in E as ->.
  cbn [mbind result_bind].
  replace (zip (clean_labels <$> (m :: ms).*1)
             (section_tokens py <$> (m :: ms).*2))
    with ((fun m => (clean_labels m.1, section_tokens py m.2)) <$> (m :: ms)).
  2:{ generalize (m :: ms). intros l. induction l as [|[a b] l IH]; [done|].
      cbn. by rewrite IH. }
  destruct (List.filter _ _) as [|r rs]; [done|].
  cbn [unzip2 mbind result_bind]. rewrite zip_fst_snd, assemble_runs. done.
Qed.

Lemma mapM_header_item_raise (ls : list str) e :
  mapM header_item ls = Raise e → e = ValueError.
Proof.
  induction ls as [|x xs IH]; [done|]. cbn [mapM].
  destruct (header_item x) as [kv|e'] eqn:Ex.
  - cbn [mbind result_bind]. destruct (mapM header_item xs); [done|].
    cbn. intros [= <-]. by apply IH.
  - cbn. intros [= <-]. unfold header_item in Ex.
    by repeat case_match; simplify_eq.
Qed.

Lemma read_headers_raise fname (ls : list str) e :
  read_headers fname ls = Raise e → e = ValueError.
Proof.
  unfold read_headers.
  destruct (mapM header_item _) as [items|e'] eqn:E; [done|].
  cbn. intros [= <-]. by eapply mapM_header_item_raise.
Qed.

(** A song that is returned is made of the retained sections. *)
Lemma process_salami_ok (py : interpreter) (fname salami : str) (s : song) :
  process_salami py fname salami = Ok s →
  read_headers fname (split nl salami) = Ok (headers s)
  ∧ retained_sections py salami ≠ []
  ∧ chord_seq s = mjoin (retained_sections py salami).*2
  ∧ label_seq s = mjoin (run <$> retained_sections py salami).
Proof.
  rewrite process_salami_eq.
  destruct (read_headers fname (split nl salami)) as [h|e]; [|done].
  destruct (mapM (section_chords py) _) as [chords|e]; [|done].
  destruct (retained_sections py salami) as [|r rs]; [done|].
  by intros [= <-].
Qed.

(** What a parse raises: [ValueError] for a header line without colon,
    for a section whose repeat marker [int] refuses and for a text that
    keeps no section; [OverflowError] and [MemoryError] for a section
    whose repeat marker has a count that the repetition cannot take. *)
Lemma process_salami_raise (py : interpreter) (fname salami : str) e :
  process_salami py fname salami = Raise e →
  e = ValueError
  ∨ (e = OverflowError ∨ e = MemoryError)
    ∧ ∃ m, m ∈ finditer_sections salami ∧ section_chords py m.2 = Raise e.
Proof.
  rewrite process_salami_eq.
  destruct (read_headers fname (split nl salami)) as [h|e'] eqn:E.
  2:{ intros [= <-]. left. by eapply read_headers_raise. }
  destruct (mapM (section_chords py) _) as [chords|e'] eqn:Ec.
  { destruct (retained_sections py salami); [by intros [= <-]; left|done]. }
  intros [= <-].
  apply mapM_result_raise in Ec as (sec & (m & -> & Hm)%list_elem_of_fmap & Hsec).
  pose proof Hsec as [->|Herr]%lines_chords_raise; [by left|].
  right. split; [done|]. by exists m.
Qed.

(** ** The two sequences *)

Lemma count_eos_app (l1 l2 : list str) :
  count_eos (l1 ++ l2) = count_eos l1 + count_eos l2.
Proof. unfold count_eos. by rewrite List.filter_app, length_app. Qed.

Lemma count_eos_replicate (n : nat) (l : str) :
  count_eos (replicate n l) = if bool_decide (l = eos) then n else 0.
Proof.
  unfold count_eos. induction n as [|n IH]; cbn [replicate List.filter].
  - by destruct (bool_decide (l = eos)).
  - destruct (bool_decide (l = eos)) eqn:E; cbn [length]; rewrite IH; done.
Qed.

Lemma count_eos_runs (secs : list (str * list str)) :
  count_eos (mjoin (run <$> secs)) = length secs + eos_named secs.
Proof.
  induction secs as [|sec secs IH]; [done|].
  change (mjoin (run <$> sec :: secs)) with (run sec ++ mjoin (run <$> secs)).
  rewrite count_eos_app, IH.
  unfold run. rewrite count_eos_app, count_eos_replicate.
  change (eos_named (sec :: secs))
    with ((if bool_decide (sec.1 = eos) then length sec.2 - 1 else 0)
          + eos_named secs).
  change (count_eos [eos]) with 1. cbn [length]. lia.
Qed.

Lemma eos_named_none (secs : list (str * list str)) :
  (∀ sec, sec ∈ secs → sec.1 ≠ eos) → eos_named secs = 0.
Proof.
  induction secs as [|sec secs IH]; [done|]. intros H.
  change (eos_named (sec :: secs))
    with ((if bool_decide (sec.1 = eos) then length sec.2 - 1 else 0)
          + eos_named secs).
  rewrite bool_decide_eq_false_2 by (apply H; left).
  rewrite IH; [done|]. intros sec' Hin. apply H. by right.
Qed.

Lemma length_runs (secs : list (str * list str)) :
  length (mjoin (run <$> secs))
  = length (mjoin secs.*2)
    + length (List.filter (fun sec => bool_decide (sec.2 = [])) secs).
Proof.
  induction secs as [|[l toks] secs IH]; [done|].
  change (mjoin (run <$> (l, toks) :: secs))
    with (run (l, toks) ++ mjoin (run <$> secs)).
  change (mjoin ((l, toks) :: secs).*2) with (toks ++ mjoin secs.*2).
  rewrite !length_app, IH. unfold run. cbn [fst snd List.filter].
  rewrite length_app, length_replicate.
  destruct toks as [|t toks]; cbn; lia.
Qed.

(** What holds in place of the length invariant: [label_seq] is longer
    than [chord_seq] by the number of retained sections without a chord. *)
Lemma label_seq_length (py : interpreter) (fname salami : str) (s : song) :
  process_salami py fname salami = Ok s →
  length (label_seq s)
  = length (chord_seq s)
    + length (List.filter (fun sec => bool_decide (sec.2 = []))
                (retained_sections py salami)).
Proof.
  intros (_ & _ & -> & ->)%process_salami_ok. apply length_runs.
Qed.

(** C1 fails on the code.  In [chordless_intro] the section "intro" has
    no chord, and still adds an "eos" to [label_seq]: the song has one
    chord and two labels. *)
Theorem chordless_section_breaks_length (py : interpreter) :
  let s := Song (<[("url" : str) := ("f" : str)]> ∅)
             (strs ["A:maj"]) (strs ["eos"; "eos"]) in
  retained_sections py chordless_intro
    = [("intro" : str, []); ("verse" : str, strs ["A:maj"])]
  ∧ process_salami py "f" chordless_intro = Ok s
  ∧ length (chord_seq s) = 1
  ∧ length (label_seq s) = 2.
Proof. repeat split; vm_compute; reflexivity. Qed.

(** C2 fails on the code.  In [zero_repeat] the final "x0" leaves the
    section "verse" without a chord; the section is retained and adds its
    "eos" to [label_seq], with nothing in [chord_seq]. *)
Theorem zero_repeat_section_emits_eos (py : interpreter) :
  findall (row "0" "A, verse, | C:maj | x0") = strs ["C:maj"; "x0"]
  ∧ resolve_repeats py (strs ["C:maj"; "x0"]) = Ok []
  ∧ retained_sections py zero_repeat = [("verse" : str, [])]
  ∧ process_salami py "f" zero_repeat
    = Ok (Song (<[("url" : str) := ("f" : str)]> ∅) [] (strs ["eos"])).
Proof. repeat split; vm_compute; reflexivity. Qed.

(** C9. When the text has sections and the normalised label of each is
    empty, [_process_salami] raises: no song is returned.  The error is
    the [ValueError] of a header line without colon, of a repeat marker
    that [int] refuses or of the unpacking of the empty list that the
    filter leaves, unless a section has a repeat marker with a count that
    the repetition cannot take, which raises [OverflowError] or
    [MemoryError] before the filter. *)
Theorem all_labels_empty_raises (py : interpreter) (fname salami : str) :
  finditer_sections salami ≠ [] →
  (∀ m, m ∈ finditer_sections salami → clean_labels m.1 = []) →
  ∃ e, process_salami py fname salami = Raise e
    ∧ (e = ValueError
       ∨ (e = OverflowError ∨ e = MemoryError)
         ∧ ∃ m, m ∈ finditer_sections salami
             ∧ section_chords py m.2 = Raise e).
Proof.
  intros _ Hall.
  destruct (process_salami py fname salami) as [s|e] eqn:E.
  2:{ exists e. split; [done|]. by eapply process_salami_raise. }
  exfalso. apply process_salami_ok in E as (_ & Hne & _). apply Hne.
  unfold retained_sections, labelled_sections.
  induction (finditer_sections salami) as [|m ms IH]; [done|].
  cbn. rewrite (Hall m) by left. cbn. apply IH.
  intros m' Hm'. apply Hall. by right.
Qed.

Lemma all_labels_empty_raises_witness :
  finditer_sections hyphen_label ≠ []
  ∧ ∃ e, process_salami cpython "f" hyphen_label = Raise e.
Proof.
  split; [by vm_compute|].
  destruct (all_labels_empty_raises cpython "f" hyphen_label) as (e & He & _).
  - by vm_compute.
  - intros m Hm. vm_compute in Hm.
    apply list_elem_of_singleton in Hm as ->. reflexivity.
  - exists e. exact He.
Defined.

(** C10, as the code has it.  In a returned song the number of "eos" in
    [label_seq] is the number of retained sections, whatever their number
    of chords, plus the entries that retained sections labelled "eos" add
    before their marker; without such a section it is the number of
    retained sections.  Every other entry of [label_seq] is the normalised
    label of a retained section. *)
Theorem eos_count (py : interpreter) (fname salami : str) (s : song) :
  process_salami py fname salami = Ok s →
  count_eos (label_seq s)
    = length (retained_sections py salami) + eos_named (retained_sections py salami)
  ∧ ((∀ sec, sec ∈ retained_sections py salami → sec.1 ≠ eos) →
     count_eos (label_seq s) = length (retained_sections py salami))
  ∧ (∀ l, l ∈ label_seq s → l ≠ eos →
     ∃ sec, sec ∈ retained_sections py salami ∧ sec.1 = l).
Proof.
  intros (_ & _ & _ & ->)%process_salami_ok.
  split; [apply count_eos_runs|]. split.
  - intros H. rewrite count_eos_runs, eos_named_none; [lia|done].
  - intros l Hl Hne.
    apply list_elem_of_join in Hl as (r & Hl & Hr).
    apply list_elem_of_fmap in Hr as (sec & -> & Hsec).
    exists sec. split; [done|]. unfold run in Hl.
    apply elem_of_app in Hl as [Hl|Hl].
    + by apply elem_of_replicate in Hl as [-> _].
    + by apply list_elem_of_singleton in Hl.
Qed.

Lemma eos_count_witness :
  process_salami cpython "f" chordless_intro
    = Ok (Song (<[("url" : str) := ("f" : str)]> ∅)
            (strs ["A:maj"]) (strs ["eos"; "eos"]))
  ∧ count_eos (strs ["eos"; "eos"]) = length (retained_sections cpython chordless_intro).
Proof.
  assert (E : process_salami cpython "f" chordless_intro
    = Ok (Song (<[("url" : str) := ("f" : str)]> ∅)
            (strs ["A:maj"]) (strs ["eos"; "eos"]))) by (by vm_compute).
  split; [exact E|].
  destruct (eos_count cpython _ _ _ E) as (_ & H & _). apply H.
  intros sec Hsec. vm_compute in Hsec.
  apply elem_of_cons in Hsec as [->|Hsec]; [done|].
  apply list_elem_of_singleton in Hsec as ->. done.
Defined.

(** C10 as stated fails: the section of [eos_label] is labelled "eos" and
    has two chords, so the song of one retained section has two "eos". *)
Lemma eos_label_counted_twice :
  let s := Song (<[("url" : str) := ("f" : str)]> ∅)
             (strs ["A:maj"; "B:min"]) (strs ["eos"; "eos"]) in
  process_salami cpython "f" eos_label = Ok s
  ∧ retained_sections cpython eos_label = [("eos" : str, strs ["A:maj"; "B:min"])]
  ∧ count_eos (label_seq s) = 2
  ∧ length (retained_sections cpython eos_label) = 1
  ∧ count_eos (label_seq s) ≠ length (retained_sections cpython eos_label).
Proof. repeat split; try (vm_compute; reflexivity). vm_compute. lia. Qed.

(** ** The headers *)

Lemma split1_colon (s : str) :
  split1 ":" s =
    if bool_decide (":"%char ∈ s)
    then [take_while not_colon s; drop 1 (drop_while not_colon s)]
    else [s].
Proof.
  induction s as [|c r IH].
  { rewrite bool_decide_eq_false_2; [done|apply not_elem_of_nil]. }
  cbn [split1 take_while drop_while].
  assert (Hc : not_colon c = negb (Ascii.eqb c ":")) by done. rewrite !Hc.
  destruct (Ascii.eqb c ":") eqn:E; cbn [negb].
  - apply eqb_true in E as ->. rewrite bool_decide_eq_true_2 by left. done.
  - apply Ascii.eqb_neq in E. rewrite IH.
    destruct (decide (":"%char ∈ r)) as [Hin|Hin].
    + rewrite (bool_decide_eq_true_2 _ Hin).
      rewrite bool_decide_eq_true_2 by (by right). done.
    + rewrite (bool_decide_eq_false_2 _ Hin).
      rewrite bool_decide_eq_false_2; [done|].
      intros [?|?]%elem_of_cons; congruence.
Qed.

Lemma colon_lstrip (x : str) : ":"%char ∈ lstrip "# " x ↔ ":"%char ∈ x.
Proof.
  unfold lstrip. induction x as [|c x IH]; [done|]. cbn [drop_while].
  destruct (existsb (Ascii.eqb c) "# ") eqn:E; [|done].
  rewrite IH. rewrite elem_of_cons. split; [by right|].
  intros [<-|?]; [|done]. done.
Qed.

Lemma header_item_eq (x : str) :
  header_item x =
    if bool_decide (":"%char ∈ x) then Ok (header_key x, header_value x)
    else Raise ValueError.
Proof.
  unfold header_item. rewrite split1_colon.
  rewrite (bool_decide_ext _ _ (colon_lstrip x)).
  by destruct (bool_decide (":"%char ∈ x)).
Qed.

Lemma mapM_header_item_ok (hs : list str) (items : list (str * str)) :
  mapM header_item hs = Ok items →
  items = (fun x => (header_key x, header_value x)) <$> hs
  ∧ Forall (fun x => ":"%char ∈ x) hs.
Proof.
  revert items. induction hs as [|x hs IH]; intros items.
  { by intros [= <-]. }
  cbn [mapM]. rewrite header_item_eq.
  destruct (decide (":"%char ∈ x)) as [Hin|Hin].
  2:{ by rewrite bool_decide_eq_false_2. }
  rewrite bool_decide_eq_true_2 by done. cbn [mbind result_bind].
  destruct (mapM header_item hs) as [items'|]; [|done].
  destruct (IH items' eq_refl) as [-> Hall]. cbn.
  intros [= <-]. split; [done|]. by constructor.
Qed.

Lemma dict_of_snoc `{Countable K} {V} (l : list (K * V)) (kv : K * V) :
  dict_of (l ++ [kv]) = <[kv.1 := kv.2]> (dict_of l).
Proof. unfold dict_of. by rewrite fold_left_app. Qed.

(** In a dictionary built from pairs, a key has the value of its last
    pair. *)
Lemma dict_of_last `{Countable K} {V} (l1 l2 : list (K * V)) (k : K) (v : V) :
  (∀ kv, kv ∈ l2 → kv.1 ≠ k) → dict_of (l1 ++ (k, v) :: l2) !! k = Some v.
Proof.
  induction l2 as [|kv l2 IH] using rev_ind; intros Hl2.
  - rewrite dict_of_snoc. apply lookup_insert_eq.
  - rewrite app_comm_cons, app_assoc, dict_of_snoc.
    rewrite lookup_insert_ne.
    + apply IH. intros kv' Hin. apply Hl2, elem_of_app. by left.
    + apply Hl2, elem_of_app. right. by left.
Qed.

(** C6, as the code has it.  In a returned song the headers map "url" to
    the path of the document.  Every line that starts with "#" contains a
    colon (the parse raises otherwise); its key is the text before its
    first colon without the leading "#" and spaces, white space before
    the colon kept, and its value is the text after that colon, trimmed.
    The key maps to the value unless the key is "url" or a later header
    line has the same key. *)
Theorem headers_of_song (py : interpreter) (fname salami : str) (s : song) :
  process_salami py fname salami = Ok s →
  headers s !! ("url" : str) = Some fname
  ∧ ∀ i x, split nl salami !! i = Some x → startswith x "#" = true →
      ":"%char ∈ x
      ∧ (header_key x ≠ "url" →
         (∀ j y, i < j → split nl salami !! j = Some y →
            startswith y "#" = true → header_key y ≠ header_key x) →
         headers s !! header_key x = Some (header_value x)).
Proof.
  intros (Hh & _)%process_salami_ok. unfold read_headers in Hh.
  destruct (mapM header_item _) as [items|] eqn:Hitems; [|done].
  injection Hh as <-. split; [apply lookup_insert_eq|].
  apply mapM_header_item_ok in Hitems as [-> Hall].
  intros i x Hi Hx.
  assert (Hlines : split nl salami
            = take i (split nl salami) ++ x :: drop (S i) (split nl salami)).
  { symmetry. by apply take_drop_middle. }
  revert Hall. rewrite Hlines at 1 2. rewrite List.filter_app. cbn [List.filter].
  rewrite Hx. rewrite fmap_app, fmap_cons. intros Hall. split.
  { rewrite Forall_app, Forall_cons in Hall. by destruct Hall as (_ & ? & _). }
  intros Hurl Hlater. rewrite lookup_insert_ne by done.
  apply dict_of_last. intros kv (y & -> & Hy)%list_elem_of_fmap. cbn.
  apply list_elem_of_In, filter_In in Hy as [Hy Hhead].
  apply list_elem_of_In, list_elem_of_lookup in Hy as [j Hj].
  rewrite lookup_drop in Hj. apply (Hlater (S i + j)); [lia|done|done].
Qed.

Lemma headers_of_song_witness :
  process_salami cpython "f" spaced_key
    = Ok (Song (<[("url" : str) := ("f" : str)]>
                  (<[("title " : str) := ("T" : str)]> ∅))
            (strs ["A:maj"]) (strs ["eos"]))
  ∧ (<[("url" : str) := ("f" : str)]>
       (<[("title " : str) := ("T" : str)]> ∅) : gmap str str)
      !! ("url" : str) = Some ("f" : str).
Proof.
  assert (E : process_salami cpython "f" spaced_key
    = Ok (Song (<[("url" : str) := ("f" : str)]>
                  (<[("title " : str) := ("T" : str)]> ∅))
            (strs ["A:maj"]) (strs ["eos"]))) by (by vm_compute).
  split; [exact E|]. exact (proj1 (headers_of_song cpython _ _ _ E)).
Defined.

(** C6 as stated fails: in [spaced_key] the header line "# title : T" has
    the text "title" before its colon once trimmed, and the headers have
    no entry under it; the entry is under "title " with its space. *)
Lemma header_key_not_trimmed :
  let s := Song (<[("url" : str) := ("f" : str)]>
                   (<[("title " : str) := ("T" : str)]> ∅))
             (strs ["A:maj"]) (strs ["eos"]) in
  process_salami cpython "f" spaced_key = Ok s
  ∧ strip (header_key "# title : T") = "title"
  ∧ headers s !! ("title" : str) = None
  ∧ headers s !! ("# title" : str) = None
  ∧ headers s !! ("title " : str) = Some ("T" : str).
Proof. repeat split; vm_compute; reflexivity. Qed.

(** ** The vocabulary *)

Lemma ord_inj (x y : ascii) : ord x = ord y → x = y.
Proof.
  unfold ord. intros H.
  by rewrite <- (ascii_N_embedding x), <- (ascii_N_embedding y), H.
Qed.

Ltac order_cases :=
  repeat match goal with
  | |- context [(?a <? ?b)%N] => destruct (N.ltb_spec a b)
  | |- context [(?a =? ?b)%N] => destruct (N.eqb_spec a b)
  end.

Lemma str_leb_refl (a : str) : str_leb a a = true.
Proof. induction a as [|x a IH]; [done|]. cbn. order_cases; done || lia. Qed.

Lemma str_leb_trans (a b c : str) :
  str_leb a b = true → str_leb b c = true → str_leb a c = true.
Proof.
  revert b c. induction a as [|x a IH]; intros [|y b] [|z c]; cbn; try done.
  order_cases; try done; try lia; try (intros; by eapply IH).
Qed.

Lemma str_leb_antisym (a b : str) :
  str_leb a b = true → str_leb b a = true → a = b.
Proof.
  revert b. induction a as [|x a IH]; intros [|y b]; cbn; try done.
  order_cases; try done; try lia.
  intros H1 H2. f_equal; [by apply ord_inj|by apply IH].
Qed.

Lemma str_leb_total (a b : str) : str_leb a b = true ∨ str_leb b a = true.
Proof.
  revert b. induction a as [|x a IH]; intros [|y b]; cbn; auto.
  order_cases; auto; lia.
Qed.

Global Instance str_le_po : PartialOrder str_le.
Proof.
  unfold str_le. split; [split|].
  - intros a. apply Is_true_true, str_leb_refl.
  - intros a b c ?%Is_true_true ?%Is_true_true.
    by eapply Is_true_true, str_leb_trans.
  - intros a b ?%Is_true_true ?%Is_true_true. by apply str_leb_antisym.
Qed.

Global Instance str_le_total : Total str_le.
Proof.
  intros a b. unfold str_le.
  destruct (str_leb_total a b) as [->| ->]; cbn; auto.
Qed.

Lemma sorted_set_elem (xs : list str) (c : str) : c ∈ sorted_set xs ↔ c ∈ xs.
Proof.
  unfold sorted_set. rewrite merge_sort_Permutation, elem_of_elements.
  apply elem_of_list_to_set.
Qed.

Lemma sorted_set_nodup (xs : list str) : NoDup (sorted_set xs).
Proof.
  unfold sorted_set. rewrite merge_sort_Permutation. apply NoDup_elements.
Qed.

Lemma sorted_set_sorted (xs : list str) : StronglySorted str_lt (sorted_set xs).
Proof.
  pose proof (sorted_set_nodup xs) as Hnd.
  assert (Hs : StronglySorted str_le (sorted_set xs)).
  { unfold sorted_set. apply StronglySorted_merge_sort; apply _. }
  induction Hs as [|a l Hs IH Hall]; [constructor|].
  apply NoDup_cons in Hnd as [Ha Hnd]. constructor; [by apply IH|].
  apply Forall_forall. intros b Hb. split.
  - rewrite Forall_forall in Hall. by apply Hall.
  - by intros ->.
Qed.

Lemma dict_of_lookup_Some `{Countable K} {V} (l : list (K * V)) (k : K) (v : V) :
  dict_of l !! k = Some v → (k, v) ∈ l.
Proof.
  induction l as [|[k' v'] l IH] using rev_ind; [done|].
  rewrite dict_of_snoc. cbn. rewrite elem_of_app, list_elem_of_singleton.
  destruct (decide (k' = k)) as [->|Hne].
  - rewrite lookup_insert_eq. intros [= ->]. by right.
  - rewrite lookup_insert_ne by done. auto.
Qed.

(** The index of a vocabulary without repetition maps each token to its
    position, and nothing else. *)
Lemma index_of_lookup (vocab : list str) (c : str) (i : nat) :
  NoDup vocab → index_of vocab !! c = Some i ↔ vocab !! i = Some c.
Proof.
  intros Hnd.
  assert (Hto : ∀ j, vocab !! j = Some c → index_of vocab !! c = Some j).
  { intros j Hj. unfold index_of.
    rewrite <- (take_drop_middle vocab j c Hj) at 1.
    rewrite imap_app, imap_cons.
    replace (length (take j vocab) + 0) with j.
    2:{ rewrite length_take. apply lookup_lt_Some in Hj. lia. }
    apply dict_of_last. intros [k v] Hkv. cbn.
    apply list_elem_of_lookup in Hkv as [n Hn].
    rewrite list_lookup_imap in Hn.
    destruct (drop (S j) vocab !! n) as [k'|] eqn:Hk'; [|done].
    injection Hn as <- <-. rewrite lookup_drop in Hk'. intros ->.
    pose proof (NoDup_lookup _ _ _ _ Hnd Hj Hk'). lia. }
  split; [|apply Hto].
  intros Hi. pose proof Hi as Hin%dict_of_lookup_Some.
  apply list_elem_of_lookup in Hin as [n Hn].
  rewrite list_lookup_imap in Hn.
  destruct (vocab !! n) as [k'|] eqn:Hk'; [|done].
  injection Hn as -> ->. done.
Qed.

Lemma str_lt_irrefl (a : str) : ¬ str_lt a a.
Proof. by intros [_ ?]. Qed.

Lemma str_lt_asym (a b : str) : str_lt a b → ¬ str_lt b a.
Proof.
  intros [H1 Hne] [H2 _]. apply Hne. by apply (anti_symm str_le).
Qed.

(** In a strictly sorted vocabulary the position of a token is its rank. *)
Lemma rank_position (vocab : list str) (c : str) (i : nat) :
  StronglySorted str_lt vocab → vocab !! i = Some c → rank c vocab = i.
Proof.
  unfold rank. intros Hs. revert i.
  induction Hs as [|a l Hs IH Hall]; intros i Hi; [done|].
  rewrite Forall_forall in Hall. destruct i as [|i]; cbn in Hi.
  - injection Hi as ->. rewrite filter_cons_False by apply str_lt_irrefl.
    replace (filter (fun t => str_lt t c) l) with (@nil str); [done|].
    symmetry. clear -Hall. induction l as [|t l IHl]; [done|].
    rewrite filter_cons_False by (apply str_lt_asym, Hall; left).
    apply IHl. intros t' Ht'. apply Hall. by right.
  - rewrite filter_cons_True.
    + cbn. f_equal. by apply IH.
    + apply Hall. by eapply list_elem_of_lookup_2.
Qed.

Lemma encode_ok (idx : gmap str nat) (seq : list str) :
  (∀ c, c ∈ seq → is_Some (idx !! c)) →
  ∃ xs, encode idx seq = Ok xs ∧ Forall2 (fun c i => idx !! c = Some i) seq xs.
Proof.
  unfold encode. induction seq as [|c seq IH]; intros H.
  { exists []. by split. }
  destruct (H c) as [i Hi]; [by left|].
  destruct IH as (xs & Hxs & Hall); [intros; apply H; by right|].
  exists (i :: xs). cbn [mapM] in *. rewrite Hi, Hxs. split; [done|].
  by constructor.
Qed.

Lemma encode_all_ok (idx : gmap str nat) (seqs : list (list str)) :
  (∀ seq c, seq ∈ seqs → c ∈ seq → is_Some (idx !! c)) →
  ∃ xss, mapM (encode idx) seqs = Ok xss
    ∧ Forall2 (Forall2 (fun c i => idx !! c = Some i)) seqs xss.
Proof.
  induction seqs as [|seq seqs IH]; intros H.
  { exists []. by split. }
  destruct (encode_ok idx seq) as (xs & Hxs & Hall).
  { intros c Hc. apply (H seq); [by left|done]. }
  destruct IH as (xss & Hxss & Halls).
  { intros seq' c Hs Hc. apply (H seq'); [by right|done]. }
  exists (xs :: xss). cbn [mapM] in *. rewrite Hxs, Hxss. split; [done|].
  by constructor.
Qed.

(** What one vocabulary and its index satisfy, for the sequences [seqs]
    they are built from. *)
Lemma sorted_set_index (seqs : list (list str)) :
  let vocab := sorted_set (mjoin seqs) in
  let idx := index_of vocab in
  StronglySorted str_lt vocab
  ∧ (∀ c, c ∈ vocab ↔ ∃ seq, seq ∈ seqs ∧ c ∈ seq)
  ∧ (∀ c i, idx !! c = Some i ↔ vocab !! i = Some c)
  ∧ (∀ seq c, seq ∈ seqs → c ∈ seq →
       ∃ i, idx !! c = Some i ∧ vocab !! i = Some c ∧ i = rank c vocab).
Proof.
  intros vocab idx.
  assert (Hs : StronglySorted str_lt vocab) by apply sorted_set_sorted.
  assert (Hin : ∀ c, c ∈ vocab ↔ ∃ seq, seq ∈ seqs ∧ c ∈ seq).
  { intros c. unfold vocab. rewrite sorted_set_elem, list_elem_of_join.
    split; intros (seq & ? & ?); by exists seq. }
  assert (Hidx : ∀ c i, idx !! c = Some i ↔ vocab !! i = Some c).
  { intros c i. apply index_of_lookup, sorted_set_nodup. }
  repeat split; try done; try apply Hin; try apply Hidx.
  intros seq c Hseq Hc.
  assert (Hv : c ∈ vocab) by (apply Hin; eauto).
  apply list_elem_of_lookup in Hv as [i Hi]. exists i.
  split; [by apply Hidx|]. split; [done|].
  symmetry. by apply rank_position.
Qed.

(** C8. When every document parses and there is at least one,
    [preprocess] returns a dataset in which [chords] and [labels] are
    strictly sorted in the order of Python on strings and hold exactly the
    tokens and the labels of the songs; [chord2idx] and [label2idx] map a
    string to an index exactly when the sorted list has the string at that
    index, so [chords[chord2idx[c]] == c] for every token of every song,
    and the index is the rank of the token among the distinct tokens; [X]
    and [y] hold these indices, song by song. *)
Theorem vocabulary_index (py : interpreter)
    (files : list (str * str)) (songs : list song) :
  parse_all py files = Ok songs → songs ≠ [] →
  ∃ d, preprocess py files = Ok d
    ∧ StronglySorted str_lt (chords d)
    ∧ StronglySorted str_lt (labels d)
    ∧ (∀ c, c ∈ chords d ↔ ∃ s, s ∈ songs ∧ c ∈ chord_seq s)
    ∧ (∀ l, l ∈ labels d ↔ ∃ s, s ∈ songs ∧ l ∈ label_seq s)
    ∧ (∀ c i, chord2idx d !! c = Some i ↔ chords d !! i = Some c)
    ∧ (∀ l i, label2idx d !! l = Some i ↔ labels d !! i = Some l)
    ∧ (∀ s c, s ∈ songs → c ∈ chord_seq s →
         ∃ i, chord2idx d !! c = Some i ∧ chords d !! i = Some c
              ∧ i = rank c (chords d))
    ∧ (∀ s l, s ∈ songs → l ∈ label_seq s →
         ∃ i, label2idx d !! l = Some i ∧ labels d !! i = Some l
              ∧ i = rank l (labels d))
    ∧ Forall2 (fun s xs =>
                 Forall2 (fun c i => chords d !! i = Some c) (chord_seq s) xs)
        songs (X d)
    ∧ Forall2 (fun s ys =>
                 Forall2 (fun l i => labels d !! i = Some l) (label_seq s) ys)
        songs (y d).
Proof.
  intros Hparse Hne. unfold preprocess. unfold parse_all in Hparse.
  rewrite Hparse. cbn [mbind result_bind].
  rewrite bool_decide_eq_false_2 by done.
  destruct (sorted_set_index (chord_seq <$> songs)) as (Hcs & Hcin & Hcidx & Hcrank).
  destruct (sorted_set_index (label_seq <$> songs)) as (Hls & Hlin & Hlidx & Hlrank).
  destruct (encode_all_ok (index_of (sorted_set (mjoin (chord_seq <$> songs))))
              (chord_seq <$> songs)) as (xss & -> & HX).
  { intros seq c Hseq Hc. destruct (Hcrank seq c Hseq Hc) as (i & -> & _). eauto. }
  destruct (encode_all_ok (index_of (sorted_set (mjoin (label_seq <$> songs))))
              (label_seq <$> songs)) as (yss & -> & Hy).
  { intros seq c Hseq Hc. destruct (Hlrank seq c Hseq Hc) as (i & -> & _). eauto. }
  cbn [mbind result_bind]. eexists. split; [done|]. cbn [chords labels chord2idx label2idx X y].
  split; [done|]. split; [done|].
  split. { intros c. rewrite Hcin. split.
           - intros (seq & (s & -> & Hs)%list_elem_of_fmap & Hc). eauto.
           - intros (s & Hs & Hc). exists (chord_seq s). split; [|done].
             apply list_elem_of_fmap. eauto. }
  split. { intros l. rewrite Hlin. split.
           - intros (seq & (s & -> & Hs)%list_elem_of_fmap & Hl). eauto.
           - intros (s & Hs & Hl). exists (label_seq s). split; [|done].
             apply list_elem_of_fmap. eauto. }
  split; [done|]. split; [done|].
  split. { intros s c Hs Hc. apply (Hcrank (chord_seq s)); [|done].
           apply list_elem_of_fmap. eauto. }
  split. { intros s l Hs Hl. apply (Hlrank (label_seq s)); [|done].
           apply list_elem_of_fmap. eauto. }
  split.
  - rewrite Forall2_fmap_l in HX. eapply Forall2_impl; [exact HX|].
    intros s xs Hxs. eapply Forall2_impl; [exact Hxs|].
    intros c i. apply Hcidx.
  - rewrite Forall2_fmap_l in Hy. eapply Forall2_impl; [exact Hy|].
    intros s ys Hys. eapply Forall2_impl; [exact Hys|].
    intros c i. apply Hlidx.
Qed.

Lemma vocabulary_index_witness :
  ∃ d, preprocess cpython two_songs = Ok d ∧ StronglySorted str_lt (chords d).
Proof.
  assert (H : ∃ songs, parse_all cpython two_songs = Ok songs ∧ songs ≠ []).
  { eexists. split; [vm_compute; reflexivity|discriminate]. }
  destruct H as (songs & Hparse & Hne).
  destruct (vocabulary_index cpython two_songs songs Hparse Hne) as (d & Hd & Hs & _).
  exists d. split; assumption.
Defined.

(** * Further properties *)

(** ** The outcome of a parse *)

Lemma mapM_header_item_all (hs : list str) :
  Forall (fun x => ":"%char ∈ x) hs →
  mapM header_item hs
    = Ok ((fun x => (header_key x, header_value x)) <$> hs).
Proof.
  induction 1 as [|x hs Hx _ IH]; [done|].
  cbn [mapM]. rewrite header_item_eq, bool_decide_eq_true_2 by done.
  cbn [mbind result_bind]. by rewrite IH.
Qed.

Lemma read_headers_ok_iff (fname : str) (ls : list str) :
  (∃ h, read_headers fname ls = Ok h)
  ↔ ∀ x, x ∈ ls → startswith x "#" = true → ":"%char ∈ x.
Proof.
  unfold read_headers. split.
  - intros [h Hh].
    destruct (mapM header_item _) as [items|] eqn:E; [|done].
    apply mapM_header_item_ok in E as [_ Hall]. rewrite Forall_forall in Hall.
    intros x Hx Hhead. apply Hall, list_elem_of_In, filter_In.
    split; [by apply list_elem_of_In|done].
  - intros H. rewrite mapM_header_item_all; [by eexists|].
    apply Forall_forall. intros x [Hx Hhead]%list_elem_of_In%filter_In.
    apply H; [by apply list_elem_of_In|done].
Qed.


(** X2. In a returned song [chord_seq] is the chords of the retained
    sections one after the other, and [label_seq] is their runs one after
    the other: for a section of [k] chords its label [k - 1] times (none
    when [k] is 0 or 1), then "eos".  There is at least one retained
    section and none has the empty label. *)
Theorem song_run_structure (py : interpreter) (fname salami : str) (s : song) :
  process_salami py fname salami = Ok s →
  retained_sections py salami ≠ []
  ∧ Forall (fun sec => sec.1 ≠ []) (retained_sections py salami)
  ∧ chord_seq s = mjoin (retained_sections py salami).*2
  ∧ label_seq s
    = mjoin ((fun sec => replicate (length sec.2 - 1) sec.1 ++ [eos])
               <$> retained_sections py salami).
Proof.
  intros (_ & Hne & Hc & Hl)%process_salami_ok. split; [done|].
  split; [|by split].
  apply Forall_forall. intros sec [_ Hsec]%list_elem_of_In%filter_In.
  apply negb_true_iff, bool_decide_eq_false in Hsec. done.
Qed.

Lemma song_run_structure_witness :
  retained_sections cpython verse_chorus
    = [("verse" : str, strs ["A:maj"; "B:min"; "A:maj"; "A:maj"]);
       ("chorus" : str, strs ["C:maj"])]
  ∧ label_seq (Song (<[("url" : str) := ("f" : str)]>
                       (<[("title" : str) := ("T" : str)]> ∅))
                 (strs ["A:maj"; "B:min"; "A:maj"; "A:maj"; "C:maj"])
                 (strs ["verse"; "verse"; "verse"; "eos"; "eos"]))
    = mjoin ((fun sec => replicate (length sec.2 - 1) sec.1 ++ [eos])
               <$> retained_sections cpython verse_chorus).
Proof.
  split; [vm_compute; reflexivity|].
  assert (E : process_salami cpython "f" verse_chorus
    = Ok (Song (<[("url" : str) := ("f" : str)]>
                  (<[("title" : str) := ("T" : str)]> ∅))
            (strs ["A:maj"; "B:min"; "A:maj"; "A:maj"; "C:maj"])
            (strs ["verse"; "verse"; "verse"; "eos"; "eos"])))
    by (vm_compute; reflexivity).
  exact (proj2 (proj2 (proj2 (song_run_structure cpython _ _ _ E)))).
Defined.

(** X3. In a returned song [label_seq] is never shorter than [chord_seq]:
    it is longer by the number of retained sections without a chord, so
    the two have the same length exactly when every retained section has
    a chord. *)
Theorem label_seq_excess (py : interpreter) (fname salami : str) (s : song) :
  process_salami py fname salami = Ok s →
  length (label_seq s)
    = length (chord_seq s) + length (chordless (retained_sections py salami))
  ∧ (length (label_seq s) = length (chord_seq s)
     ↔ ∀ sec, sec ∈ retained_sections py salami → sec.2 ≠ []).
Proof.
  intros H. pose proof (label_seq_length py _ _ _ H) as Hlen.
  fold (chordless (retained_sections py salami)) in Hlen. split; [done|].
  rewrite Hlen. unfold chordless.
  generalize (retained_sections py salami). intros secs. split.
  - intros Hz sec Hsec Hnil.
    assert (Hin : In sec (List.filter (fun sec => bool_decide (sec.2 = [])) secs)).
    { apply filter_In. split; [by apply list_elem_of_In|].
      by apply bool_decide_eq_true. }
    destruct (List.filter _ secs); [done|cbn in Hz; lia].
  - intros Hall.
    replace (List.filter (fun sec => bool_decide (sec.2 = [])) secs)
      with (@nil (str * list str)); [cbn; lia|].
    symmetry. induction secs as [|sec secs IH]; [done|]. cbn.
    rewrite bool_decide_eq_false_2 by (apply Hall; left).
    apply IH. intros sec' Hin. apply Hall. by right.
Qed.

Lemma label_seq_excess_witness :
  length (strs ["eos"; "eos"])
  = length (strs ["A:maj"]) + length (chordless (retained_sections cpython chordless_intro)).
Proof.
  assert (E : process_salami cpython "f" chordless_intro
    = Ok (Song (<[("url" : str) := ("f" : str)]> ∅)
            (strs ["A:maj"]) (strs ["eos"; "eos"])))
    by (vm_compute; reflexivity).
  exact (proj1 (label_seq_excess cpython _ _ _ E)).
Defined.

(** ** Labels *)

Lemma remove_char_not_in (c : ascii) (s : str) : c ∉ remove_char c s.
Proof.
  unfold remove_char. intros [_ H]%list_elem_of_In%filter_In.
  by rewrite Ascii.eqb_refl in H.
Qed.

Lemma remove_char_keeps (c d : ascii) (s : str) : d ∉ s → d ∉ remove_char c s.
Proof.
  unfold remove_char. intros Hd [H _]%list_elem_of_In%filter_In.
  by apply Hd, list_elem_of_In.
Qed.

Lemma remove_char_id (c : ascii) (s : str) : c ∉ s → remove_char c s = s.
Proof.
  unfold remove_char. induction s as [|d s IH]; [done|].
  intros [Hd Hs]%not_elem_of_cons. cbn.
  assert (Ascii.eqb d c = false) as -> by (apply Ascii.eqb_neq; congruence).
  cbn. by rewrite IH.
Qed.

(** The three ways in which [clean_labels] ends. *)
Lemma clean_labels_cases (raw : str) :
  let cleaned := remove_char " " (remove_char "-" raw) in
  clean_labels raw ∈ prefixes
  ∨ clean_labels raw = "keychange"
  ∨ (clean_labels raw = cleaned
     ∧ Forall (fun p => startswith cleaned p = false) prefixes
     ∧ cleaned ≠ "modulation").
Proof.
  unfold clean_labels. generalize (remove_char " " (remove_char "-" raw)).
  intros c. cbn [prefixes strs fmap list_fmap fold_left].
  repeat match goal with
  | |- context [startswith c ?p] =>
      let E := fresh "E" in
      destruct (startswith c p) eqn:E;
      [left; vm_compute; repeat ((by left) || right)|]
  end.
  destruct (decide (c = "modulation")) as [->|Hne]; [right; by left|].
  right. right. split; [done|]. split; [|done].
  repeat (constructor; [assumption|]). constructor.
Qed.

Lemma fold_no_prefix (c : str) (ps : list str) :
  Forall (fun p => startswith c p = false) ps →
  fold_left (fun label prefix => if startswith label prefix then prefix else label)
    ps c = c.
Proof. induction 1 as [|p ps Hp _ IH]; [done|]. cbn. by rewrite Hp. Qed.

(** X6. [clean_labels] is idempotent, and its result has neither hyphen
    nor space. *)
Theorem clean_labels_idempotent (raw : str) :
  clean_labels (clean_labels raw) = clean_labels raw
  ∧ ("-"%char ∉ clean_labels raw)
  ∧ (" "%char ∉ clean_labels raw).
Proof.
  assert (Hh : "-"%char ∉ remove_char " " (remove_char "-" raw))
    by apply remove_char_keeps, remove_char_not_in.
  assert (Hs : " "%char ∉ remove_char " " (remove_char "-" raw))
    by apply remove_char_not_in.
  destruct (clean_labels_cases raw) as [Hp|[->|(-> & Hno & Hne)]].
  - assert (Hpre : Forall (fun p => clean_labels p = p
                               ∧ ("-"%char ∉ p) ∧ (" "%char ∉ p)) prefixes).
    { unfold prefixes, strs. cbn [fmap list_fmap].
      repeat (constructor;
              [split; [vm_compute; reflexivity|split; compute_done]|]).
      constructor. }
    rewrite Forall_forall in Hpre. by apply Hpre.
  - split; [vm_compute; reflexivity|]. split; compute_done.
  - split; [|done]. unfold clean_labels.
    rewrite (remove_char_id "-") by done. rewrite (remove_char_id " ") by done.
    rewrite (fold_no_prefix _ _ Hno).
    by destruct (decide (remove_char " " (remove_char "-" raw) = "modulation")).
Qed.

Lemma label_comma_chars (s w : str) :
  label_comma s = Some w → w ≠ [] ∧ forallb is_label_char w = true.
Proof.
  unfold label_comma. pose proof (take_while_all is_label_char s) as Hall.
  destruct (take_while is_label_char s) as [|c t]; [done|].
  destruct (drop_while is_label_char s) as [|d r]; [done|].
  destruct (Ascii.eqb d ","); [|done]. by intros [= <-].
Qed.

Lemma section_start_chars (l w : str) :
  section_start l = Some w → w ≠ [] ∧ forallb is_label_char w = true.
Proof.
  induction l as [|c r IH]; [done|]. cbn.
  destruct (section_start r) as [w'|].
  - intros [= <-]. by apply IH.
  - destruct (Ascii.eqb c tab); [|done]. unfold start_after_tab.
    destruct (variant_marker r) as [r'|]; [|apply label_comma_chars].
    destruct (label_comma r') as [w'|] eqn:E; [|apply label_comma_chars].
    intros [= <-]. by eapply label_comma_chars.
Qed.

(** Every match of [section_regex] is made of lines of the text, the
    first of which gives the label. *)
Lemma finditer_from_lines (k : nat) (ls : list str) (m : str * str) :
  m ∈ finditer_from k ls →
  ∃ l body, section_start l = Some m.1 ∧ m.2 = unlines (l :: body)
    ∧ ∀ x, x ∈ l :: body → x ∈ ls.
Proof.
  revert k. induction ls as [|l rest IH]; intros k; [by intros ?%elem_of_nil|].
  assert (Hrest : ∀ k', m ∈ finditer_from k' rest →
    ∃ l' body, section_start l' = Some m.1 ∧ m.2 = unlines (l' :: body)
      ∧ ∀ x, x ∈ l' :: body → x ∈ l :: rest).
  { intros k' (l' & body & H1 & H2 & H3)%IH. exists l', body.
    split; [done|]. split; [done|]. intros x Hx. right. by apply H3. }
  destruct k as [|k]; cbn [finditer_from]; [|apply Hrest].
  destruct (section_start l) as [label|] eqn:El; [|apply Hrest].
  destruct (lazy_lines rest) as [body|] eqn:Eb; [|apply Hrest].
  intros [->|Hm]%elem_of_cons; [|by eapply Hrest].
  exists l, body. split; [done|]. split; [done|].
  apply lazy_lines_some in Eb as (Hbody & _ & _).
  intros x [->|Hx]%elem_of_cons; [by left|]. right.
  rewrite Hbody in Hx. apply elem_of_take in Hx as (i & Hi & _).
  by eapply list_elem_of_lookup_2.
Qed.

Lemma label_char_lower (d : ascii) :
  is_label_char d = true → d ≠ "-"%char → is_lower d = true.
Proof.
  unfold is_label_char, is_lower. intros [H|H%eqb_true]%orb_true_iff; done.
Qed.

Lemma clean_labels_lower (raw : str) :
  forallb is_label_char raw = true → forallb is_lower (clean_labels raw) = true.
Proof.
  intros Hraw.
  destruct (clean_labels_cases raw) as [Hp|[->|(-> & _ & _)]].
  - assert (Hpre : Forall (fun p => forallb is_lower p = true) prefixes).
    { unfold prefixes, strs. cbn [fmap list_fmap].
      repeat (constructor; [vm_compute; reflexivity|]). constructor. }
    rewrite Forall_forall in Hpre. by apply Hpre.
  - vm_compute. reflexivity.
  - apply forallb_forall. intros d Hd. rewrite forallb_forall in Hraw.
    unfold remove_char in Hd.
    apply filter_In in Hd as [[Hd Hh]%filter_In _].
    apply label_char_lower; [by apply Hraw|].
    apply negb_true_iff, Ascii.eqb_neq in Hh. done.
Qed.

Lemma last_runs (secs : list (str * list str)) :
  secs ≠ [] → last (mjoin (run <$> secs)) = Some eos.
Proof.
  intros Hne. destruct (exists_last Hne) as (secs' & sec & ->).
  rewrite fmap_app, join_app. cbn [fmap list_fmap mjoin list_join].
  unfold run at 2. rewrite app_nil_r, !app_assoc. apply last_snoc.
Qed.

(** X5. In a returned song [label_seq] is not empty and ends with "eos",
    and each of its entries is a non-empty word of the letters a to z:
    "eos" or the normalised label of a section. *)
Theorem label_seq_shape (py : interpreter) (fname salami : str) (s : song) :
  process_salami py fname salami = Ok s →
  label_seq s ≠ []
  ∧ last (label_seq s) = Some eos
  ∧ ∀ l, l ∈ label_seq s → l ≠ [] ∧ forallb is_lower l = true.
Proof.
  intros (_ & Hne & _ & ->)%process_salami_ok.
  pose proof (last_runs _ Hne) as Hlast.
  split; [by intros E; rewrite E in Hlast|]. split; [done|].
  intros l (r & Hl & (sec & -> & Hsec)%list_elem_of_fmap)%list_elem_of_join.
  unfold run in Hl. apply elem_of_app in Hl as [Hl|Hl].
  2:{ apply list_elem_of_singleton in Hl as ->. by vm_compute. }
  apply elem_of_replicate in Hl as [-> _].
  apply list_elem_of_In, filter_In in Hsec as [Hsec Hlab].
  split. { by apply negb_true_iff, bool_decide_eq_false in Hlab. }
  apply list_elem_of_In, list_elem_of_fmap in Hsec as (m & -> & Hm).
  apply finditer_from_lines in Hm as (l & _ & Hstart & _).
  apply clean_labels_lower. by eapply section_start_chars.
Qed.

Lemma label_seq_shape_witness :
  last (strs ["verse"; "verse"; "verse"; "eos"; "eos"]) = Some eos.
Proof.
  assert (E : process_salami cpython "f" verse_chorus
    = Ok (Song (<[("url" : str) := ("f" : str)]>
                  (<[("title" : str) := ("T" : str)]> ∅))
            (strs ["A:maj"; "B:min"; "A:maj"; "A:maj"; "C:maj"])
            (strs ["verse"; "verse"; "verse"; "eos"; "eos"])))
    by (vm_compute; reflexivity).
  exact (proj1 (proj2 (label_seq_shape cpython _ _ _ E))).
Defined.

(** ** Chords *)

(** X4. Every entry of the [chord_seq] of a returned song is a symbol of
    the grammar of [valid_symbol] that [findall] found in a line of the
    document; it is not empty and holds no white space. *)
Theorem chord_seq_symbols (py : interpreter)
    (fname salami : str) (s : song) (c : str) :
  process_salami py fname salami = Ok s → c ∈ chord_seq s →
  is_symbol c = true
  ∧ c ≠ []
  ∧ forallb nonspace c = true
  ∧ ∃ line, line ∈ split nl salami ∧ c ∈ findall line.
Proof.
  intros (_ & _ & -> & _)%process_salami_ok.
  intros (toks & Hc & (sec & -> & Hsec)%list_elem_of_fmap)%list_elem_of_join.
  apply list_elem_of_In, filter_In in Hsec as [Hsec _].
  apply list_elem_of_In, list_elem_of_fmap in Hsec as (m & -> & Hm).
  cbn [snd] in Hc.
  apply finditer_from_lines in Hm as (l & body & _ & Htext & Hsub).
  destruct (section_tokens_elem py _ _ Hc) as (line & Hline & Hin).
  assert (Hsym : is_symbol c = true).
  { pose proof (findall_symbols line) as Hall. rewrite Forall_forall in Hall.
    by apply Hall. }
  split; [done|]. split; [by apply symbol_nonempty|].
  split; [by apply symbol_nonspace|].
  exists line. split; [|done].
  rewrite Htext, split_unlines in Hline.
  - apply elem_of_app in Hline as [Hline|Hline]; [by apply Hsub|].
    apply list_elem_of_singleton in Hline as ->. by apply elem_of_nil in Hin.
  - apply Forall_forall. intros x Hx.
    pose proof (split_no_nl salami) as Hnl. rewrite Forall_forall in Hnl.
    by apply Hnl, Hsub.
Qed.

Lemma chord_seq_symbols_witness :
  is_symbol "B:min" = true.
Proof.
  assert (E : process_salami cpython "f" verse_chorus
    = Ok (Song (<[("url" : str) := ("f" : str)]>
                  (<[("title" : str) := ("T" : str)]> ∅))
            (strs ["A:maj"; "B:min"; "A:maj"; "A:maj"; "C:maj"])
            (strs ["verse"; "verse"; "verse"; "eos"; "eos"])))
    by (vm_compute; reflexivity).
  refine (proj1 (chord_seq_symbols cpython _ _ _ "B:min" E _)).
  cbn. right. left.
Defined.

(** ** Tokens and white space *)

Lemma prefix_before_space (t r a b : str) (sp : ascii) :
  t ++ r = a ++ sp :: b → forallb nonspace t = true → isspace sp = true →
  ∃ r', a = t ++ r'.
Proof.
  revert a. induction t as [|c t IH]; intros a Heq Ht Hsp; [by exists a|].
  cbn in Ht. apply andb_true_iff in Ht as [Hc Ht].
  destruct a as [|c' a]; cbn in Heq.
  - injection Heq as -> _. unfold nonspace in Hc. by rewrite Hsp in Hc.
  - injection Heq as -> Heq. destruct (IH a Heq Ht Hsp) as [r' ->]. by exists r'.
Qed.

(** A match of [valid_symbol] does not depend on what follows the next
    white space. *)
Lemma symbol_at_space (a b : str) (sp : ascii) :
  isspace sp = true → symbol_at (a ++ sp :: b) = symbol_at a.
Proof.
  intros Hsp.
  assert (Hleft : ∀ t, symbol_at (a ++ sp :: b) = Some t →
    ∃ t', symbol_at a = Some t' ∧ length t ≤ length t').
  { intros t (Ht & r & Hr & _)%symbol_at_some.
    destruct (prefix_before_space t r a b sp) as [r' ->]; [done| |done|].
    { by apply symbol_nonspace. }
    by apply symbol_at_complete. }
  assert (Hright : ∀ t, symbol_at a = Some t →
    ∃ t', symbol_at (a ++ sp :: b) = Some t' ∧ length t ≤ length t').
  { intros t (Ht & r & -> & _)%symbol_at_some. rewrite <- app_assoc.
    by apply symbol_at_complete. }
  destruct (symbol_at (a ++ sp :: b)) as [t1|] eqn:E1.
  - destruct (Hleft t1 eq_refl) as (t2 & E2 & Hle). rewrite E2.
    destruct (Hright t2 E2) as (t1' & [= <-] & Hge).
    apply symbol_at_some in E1 as (Ht1 & r1 & Hr1 & _).
    apply symbol_at_some in E2 as (_ & r2 & -> & _).
    destruct (prefix_before_space t1 r1 (t2 ++ r2) b sp) as [r' Hr'];
      [done|by apply symbol_nonspace|done|].
    f_equal. apply (f_equal (take (length t1))) in Hr'.
    rewrite take_app_length in Hr'. rewrite <- Hr'.
    replace (length t1) with (length t2) by lia. by rewrite take_app_length.
  - destruct (symbol_at a) as [t2|] eqn:E2; [|done].
    by destruct (Hright t2 eq_refl) as (? & ? & _).
Qed.

(** X7. White space separates tokens: the tokens of a line are those of
    the part before a white space character followed by those of the part
    after it. *)
Theorem findall_whitespace (a b : str) (sp : ascii) :
  isspace sp = true → findall (a ++ sp :: b) = findall a ++ findall b.
Proof.
  intros Hsp. remember (length a) as n eqn:Hn.
  revert a Hn. induction (lt_wf n) as [n _ IH]. intros a ->.
  destruct a as [|c a].
  { pose proof (symbol_at_space [] b sp Hsp) as H0. cbn [app] in *.
    rewrite findall_cons. by rewrite H0. }
  change ((c :: a) ++ sp :: b) with (c :: (a ++ sp :: b)).
  rewrite !findall_cons.
  change (c :: (a ++ sp :: b)) with ((c :: a) ++ sp :: b).
  rewrite (symbol_at_space (c :: a) b sp Hsp).
  destruct (symbol_at (c :: a)) as [t|] eqn:Et.
  - pose proof Et as (Ht & r & Hr & _)%symbol_at_some.
    rewrite Hr, <- app_assoc, !drop_app_length. cbn [app]. f_equal.
    eapply IH; [|done]. apply symbol_nonempty in Ht.
    rewrite Hr, length_app. destruct t; [done|cbn; lia].
  - eapply IH; [|done]. cbn. lia.
Qed.

Lemma findall_whitespace_witness :
  findall "| A:maj B:min |" = findall "| A:maj" ++ findall "B:min |".
Proof. apply (findall_whitespace "| A:maj" "B:min |" " "). reflexivity. Defined.

(** ** The chords of a section *)



(** X9. [resolve_repeats] raises [IndexError] exactly on the empty list,
    which the filter [valid_lines] keeps away from it.  A list whose last
    token does not start with "x" is returned as it is, repeat markers
    before the last token included: only a marker that ends the line is
    resolved.  No token is returned that the list did not hold. *)
Theorem resolve_repeats_edges (py : interpreter) (x : list str) :
  (resolve_repeats py x = Raise IndexError ↔ x = [])
  ∧ (∀ final, last x = Some final → startswith final "x" = false →
       resolve_repeats py x = Ok x)
  ∧ (∀ r t, resolve_repeats py x = Ok r → t ∈ r → t ∈ x).
Proof.
  split; [|split].
  - split; [|by intros ->].
    intros [[_ ?]|[_ [?|[?|?]]]]%resolve_repeats_raise; done.
  - intros final Hlast Hx. unfold resolve_repeats, last_item.
    rewrite Hlast. cbn [mbind result_bind]. by rewrite Hx.
  - intros r t. apply resolve_repeats_subset.
Qed.

Lemma resolve_repeats_edges_witness :
  resolve_repeats cpython (strs ["x2"; "A:maj"]) = Ok (strs ["x2"; "A:maj"]).
Proof.
  apply (proj1 (proj2 (resolve_repeats_edges cpython (strs ["x2"; "A:maj"])))
           ("A:maj" : str)); reflexivity.
Defined.

(** ** The content of the headers *)

Lemma rstrip_of_idem p (s : str) : rstrip_of p (rstrip_of p s) = rstrip_of p s.
Proof.
  induction s as [|c s IH]; [done|]. cbn.
  destruct (rstrip_of p s) as [|d r] eqn:E.
  - destruct (p c) eqn:Ec; [done|]. cbn. by rewrite Ec.
  - cbn. cbn in IH. by rewrite IH.
Qed.

Lemma rstrip_of_head p (c : ascii) (s : str) :
  p c = false → ∃ r, rstrip_of p (c :: s) = c :: r.
Proof.
  intros Hc. cbn. destruct (rstrip_of p s); [|by eexists].
  rewrite Hc. by eexists.
Qed.

Lemma strip_of_idem p (s : str) : strip_of p (strip_of p s) = strip_of p s.
Proof.
  unfold strip_of.
  assert (Hd : drop_while p (rstrip_of p (drop_while p s))
               = rstrip_of p (drop_while p s)).
  { destruct (drop_while p s) as [|c r] eqn:E; [done|].
    pose proof (drop_while_head p s c r E) as Hc.
    destruct (rstrip_of_head p c r Hc) as [r' ->]. cbn. by rewrite Hc. }
  rewrite Hd. apply rstrip_of_idem.
Qed.

Lemma header_key_no_colon (x : str) : ":"%char ∉ header_key x.
Proof.
  unfold header_key. intros Hin%list_elem_of_In.
  pose proof (take_while_all not_colon (lstrip "# " x)) as Hall.
  rewrite forallb_forall in Hall. specialize (Hall _ Hin). done.
Qed.

Lemma read_headers_dict (fname : str) (ls : list str) (h : gmap str str) :
  read_headers fname ls = Ok h →
  h = <[("url" : str) := fname]>
        (dict_of ((fun x => (header_key x, header_value x))
                    <$> List.filter (fun x => startswith x "#") ls)).
Proof.
  unfold read_headers.
  destruct (mapM header_item _) as [items|] eqn:E; [|done].
  apply mapM_header_item_ok in E as [-> _]. by intros [= <-].
Qed.

(** X10. The path of the document shows in the entry "url" of the headers
    and nowhere else: under another path the same text gives the same two
    sequences and the same headers but for "url". *)
Theorem path_only_in_url (py : interpreter)
    (fname fname' salami : str) (s : song) :
  process_salami py fname salami = Ok s →
  ∃ s', process_salami py fname' salami = Ok s'
    ∧ chord_seq s' = chord_seq s
    ∧ label_seq s' = label_seq s
    ∧ headers s' = <[("url" : str) := fname']> (headers s).
Proof.
  rewrite !process_salami_eq.
  destruct (read_headers fname (split nl salami)) as [h|] eqn:E; [|done].
  destruct (read_headers_ok_iff fname' (split nl salami)) as [_ [h' E']].
  { apply (read_headers_ok_iff fname). by exists h. }
  rewrite E'. destruct (mapM (section_chords py) _) as [chords|]; [|done].
  destruct (retained_sections py salami) as [|r rs]; [done|].
  intros [= <-]. eexists. split; [done|]. cbn. split; [done|]. split; [done|].
  apply read_headers_dict in E as ->. apply read_headers_dict in E' as ->.
  by rewrite insert_insert_eq.
Qed.

Lemma path_only_in_url_witness :
  ∃ s', process_salami cpython "g" chordless_intro = Ok s'
    ∧ chord_seq s' = strs ["A:maj"].
Proof.
  assert (E : process_salami cpython "f" chordless_intro
    = Ok (Song (<[("url" : str) := ("f" : str)]> ∅)
            (strs ["A:maj"]) (strs ["eos"; "eos"])))
    by (vm_compute; reflexivity).
  destruct (path_only_in_url cpython "f" "g" _ _ E) as (s' & H1 & H2 & _).
  exists s'. split; assumption.
Defined.

(** X11. Every entry of the headers of a returned song is the entry "url"
    with the path, or comes from a line of the document that starts with
    "#": the key is what that line has before its first colon, so it
    holds no colon, and the value has no white space at either end.
    Lines that do not start with "#" add nothing to the headers. *)
Theorem headers_content (py : interpreter)
    (fname salami : str) (s : song) (k v : str) :
  process_salami py fname salami = Ok s →
  headers s !! k = Some v →
  (k = "url" ∧ v = fname)
  ∨ (∃ x, x ∈ split nl salami ∧ startswith x "#" = true
        ∧ k = header_key x ∧ v = header_value x
        ∧ (":"%char ∉ k) ∧ strip v = v).
Proof.
  intros (Hh & _)%process_salami_ok. apply read_headers_dict in Hh as ->.
  destruct (decide (k = "url")) as [->|Hne].
  { rewrite lookup_insert_eq. intros [= <-]. by left. }
  rewrite lookup_insert_ne by done.
  intros (x & [= -> ->] & Hx)%dict_of_lookup_Some%list_elem_of_fmap.
  apply list_elem_of_In, filter_In in Hx as [Hx Hhead].
  right. exists x. split; [by apply list_elem_of_In|].
  split; [done|]. split; [done|]. split; [done|].
  split; [apply header_key_no_colon|]. apply strip_of_idem.
Qed.

Lemma headers_content_witness :
  ∃ x, x ∈ split nl spaced_key ∧ ("title " : str) = header_key x
    ∧ ("T" : str) = header_value x.
Proof.
  assert (E : process_salami cpython "f" spaced_key
    = Ok (Song (<[("url" : str) := ("f" : str)]>
                  (<[("title " : str) := ("T" : str)]> ∅))
            (strs ["A:maj"]) (strs ["eos"])))
    by (vm_compute; reflexivity).
  destruct (headers_content cpython "f" spaced_key _ "title " "T" E) as [[Hk _]|H];
    [reflexivity|discriminate Hk|].
  destruct H as (x & Hx & _ & Hk & Hv & _). exists x. repeat split; assumption.
Defined.

(** ** Vocabularies and indices *)

(** X12. [sorted(list(set(xs)))] depends on the set of the strings of
    [xs] only: neither their order in [xs] nor how often they occur
    changes the sorted list. *)
Theorem sorted_set_of_elements (xs ys : list str) :
  (∀ c, c ∈ xs ↔ c ∈ ys) → sorted_set xs = sorted_set ys.
Proof.
  intros H. apply (StronglySorted_unique str_le).
  - unfold sorted_set. apply StronglySorted_merge_sort; apply _.
  - unfold sorted_set. apply StronglySorted_merge_sort; apply _.
  - apply NoDup_Permutation; [apply sorted_set_nodup..|].
    intros c. by rewrite !sorted_set_elem.
Qed.

Lemma sorted_set_of_elements_witness :
  sorted_set (strs ["B:min"; "A:maj"; "B:min"]) = sorted_set (strs ["A:maj"; "B:min"]).
Proof.
  apply sorted_set_of_elements. intros c. unfold strs. cbn [fmap list_fmap].
  rewrite !elem_of_cons. rewrite !elem_of_nil. tauto.
Defined.

(** X13. [[idx[c] for c in seq]] is defined exactly when [idx] has every
    token of [seq]; it then has one index per token, the one of the token
    at the same place.  With a token that [idx] lacks it raises
    [KeyError]. *)
Theorem encode_outcome (idx : gmap str nat) (seq : list str) :
  ((∃ xs, encode idx seq = Ok xs) ↔ ∀ c, c ∈ seq → is_Some (idx !! c))
  ∧ (∀ xs, encode idx seq = Ok xs →
       length xs = length seq
       ∧ ∀ i c, seq !! i = Some c → idx !! c = xs !! i)
  ∧ ((∃ xs, encode idx seq = Ok xs) ∨ encode idx seq = Raise KeyError).
Proof.
  assert (Hok : ∀ xs, encode idx seq = Ok xs →
    Forall2 (fun c i => idx !! c = Some i) seq xs).
  { intros xs H2%mapM_result_Forall2.
    eapply Forall2_impl; [done|]. intros c i. cbn.
    destruct (idx !! c); [by intros [= ->]|done]. }
  split; [split|split].
  - intros [xs Hxs%Hok] c (i & Hi)%list_elem_of_lookup.
    destruct (Forall2_lookup_l _ _ _ _ _ Hxs Hi) as (n & _ & ->). by eexists.
  - intros H. destruct (encode_ok idx seq H) as (xs & Hxs & _). by exists xs.
  - intros xs Hxs%Hok. split; [symmetry; by eapply Forall2_length|].
    intros i c Hi.
    destruct (Forall2_lookup_l _ _ _ _ _ Hxs Hi) as (n & -> & ->). done.
  - clear Hok. unfold encode. induction seq as [|c seq IH]; [left; by eexists|].
    cbn [mapM]. destruct (idx !! c) as [i|]; [|by right].
    cbn [mbind result_bind].
    destruct IH as [[xs ->]| ->]; [left; by eexists|by right].
Qed.

Lemma encode_outcome_witness :
  encode (index_of (strs ["A:maj"; "B:min"])) (strs ["B:min"; "A:maj"])
  = Ok [1; 0].
Proof.
  destruct (proj1 (encode_outcome (index_of (strs ["A:maj"; "B:min"]))
                     (strs ["B:min"; "A:maj"]))) as [_ [xs Hxs]].
  - intros c Hc. unfold strs in Hc. cbn [fmap list_fmap] in Hc.
    apply elem_of_cons in Hc as [->|Hc]; [by eexists|].
    apply list_elem_of_singleton in Hc as ->. by eexists.
  - vm_compute. reflexivity.
Defined.

(** ** The dataset *)

(** The dataset that [preprocess] builds from the songs. *)
Lemma preprocess_dataset (py : interpreter)
    (files : list (str * str)) (songs : list song) :
  parse_all py files = Ok songs → songs ≠ [] →
  let cs := sorted_set (mjoin (chord_seq <$> songs)) in
  let ls := sorted_set (mjoin (label_seq <$> songs)) in
  ∃ xss yss,
    preprocess py files
      = Ok (Dataset (headers <$> songs) cs ls (index_of cs) (index_of ls) xss yss)
    ∧ Forall2 (fun s xs => Forall2 (fun c i => cs !! i = Some c) (chord_seq s) xs)
        songs xss
    ∧ Forall2 (fun s ys => Forall2 (fun l i => ls !! i = Some l) (label_seq s) ys)
        songs yss.
Proof.
  intros Hparse Hne cs ls. unfold preprocess. unfold parse_all in Hparse.
  rewrite Hparse. cbn [mbind result_bind].
  rewrite bool_decide_eq_false_2 by done.
  destruct (sorted_set_index (chord_seq <$> songs)) as (_ & _ & Hcidx & Hcrank).
  destruct (sorted_set_index (label_seq <$> songs)) as (_ & _ & Hlidx & Hlrank).
  destruct (encode_all_ok (index_of cs) (chord_seq <$> songs)) as (xss & HX & HX2).
  { intros seq c Hseq Hc. destruct (Hcrank seq c Hseq Hc) as (i & Hi & _).
    by exists i. }
  destruct (encode_all_ok (index_of ls) (label_seq <$> songs)) as (yss & HY & HY2).
  { intros seq c Hseq Hc. destruct (Hlrank seq c Hseq Hc) as (i & Hi & _).
    by exists i. }
  exists xss, yss. fold cs ls. rewrite HX. cbn [mbind result_bind]. rewrite HY.
  split; [done|]. split.
  - rewrite Forall2_fmap_l in HX2. eapply Forall2_impl; [exact HX2|].
    intros s xs Hxs. eapply Forall2_impl; [exact Hxs|]. intros c i. apply Hcidx.
  - rewrite Forall2_fmap_l in HY2. eapply Forall2_impl; [exact HY2|].
    intros s ys Hys. eapply Forall2_impl; [exact Hys|]. intros c i. apply Hlidx.
Qed.

Lemma preprocess_songs (py : interpreter)
    (files : list (str * str)) (d : dataset) :
  preprocess py files = Ok d →
  ∃ songs, parse_all py files = Ok songs ∧ songs ≠ [].
Proof.
  unfold preprocess, parse_all.
  destruct (mapM _ files) as [songs|]; [|done]. cbn [mbind result_bind].
  destruct (decide (songs = [])) as [->|Hne]; [done|]. by exists songs.
Qed.

Lemma parse_all_Forall2 (py : interpreter)
    (files : list (str * str)) (songs : list song) :
  parse_all py files = Ok songs →
  Forall2 (fun f s => process_salami py f.1 f.2 = Ok s) files songs.
Proof. apply mapM_result_Forall2. Qed.


Lemma read_headers_url (fname : str) (ls : list str) (h : gmap str str) :
  read_headers fname ls = Ok h → h !! ("url" : str) = Some fname.
Proof. intros ->%read_headers_dict. apply lookup_insert_eq. Qed.

(** X15. The dataset has one song per document, in the order of the
    documents: [len] is the number of documents, [info], [X] and [y] have
    that length, and the headers at a position have under "url" the path
    of the document at that position. *)
Theorem dataset_shape (py : interpreter)
    (files : list (str * str)) (d : dataset) :
  preprocess py files = Ok d →
  len d = length files
  ∧ length (info d) = length files
  ∧ length (y d) = length files
  ∧ ∀ i f, files !! i = Some f →
      ∃ h, info d !! i = Some h ∧ h !! ("url" : str) = Some f.1.
Proof.
  intros Hd. pose proof Hd as (songs & Hparse & Hne)%preprocess_songs.
  destruct (preprocess_dataset py files songs Hparse Hne) as (xss & yss & Hd' & HX & HY).
  rewrite Hd in Hd'. injection Hd' as ->.
  apply parse_all_Forall2 in Hparse.
  pose proof (Forall2_length _ _ _ Hparse) as Hlen.
  unfold len. cbn [X y info].
  split; [by rewrite <- (Forall2_length _ _ _ HX)|].
  split; [by rewrite length_fmap|].
  split; [by rewrite <- (Forall2_length _ _ _ HY)|].
  intros i f Hi.
  destruct (Forall2_lookup_l _ _ _ _ _ Hparse Hi) as (s & Hs & Hf).
  exists (headers s). split; [by rewrite list_lookup_fmap, Hs|].
  apply process_salami_ok in Hf as (Hh & _). by eapply read_headers_url.
Qed.

Lemma dataset_shape_witness :
  ∃ d, preprocess cpython two_songs = Ok d ∧ len d = 2.
Proof.
  assert (H : ∃ d, preprocess cpython two_songs = Ok d).
  { eexists. vm_compute. reflexivity. }
  destruct H as [d Hd]. exists d. split; [exact Hd|].
  exact (proj1 (dataset_shape cpython two_songs d Hd)).
Defined.

(** X16. In a dataset "eos" is always one of [labels] and has an index;
    every index of [X] is a position of [chords] and every index of [y] a
    position of [labels]. *)
Theorem dataset_indices (py : interpreter)
    (files : list (str * str)) (d : dataset) :
  preprocess py files = Ok d →
  eos ∈ labels d
  ∧ is_Some (label2idx d !! eos)
  ∧ (∀ xs i, xs ∈ X d → i ∈ xs → i < length (chords d))
  ∧ (∀ ys i, ys ∈ y d → i ∈ ys → i < length (labels d)).
Proof.
  intros Hd. pose proof Hd as (songs & Hparse & Hne)%preprocess_songs.
  destruct (preprocess_dataset py files songs Hparse Hne) as (xss & yss & Hd' & HX & HY).
  rewrite Hd in Hd'. injection Hd' as ->. cbn [X y labels chords label2idx].
  assert (Heos : eos ∈ sorted_set (mjoin (label_seq <$> songs))).
  { apply sorted_set_elem. destruct songs as [|s songs]; [done|].
    apply parse_all_Forall2 in Hparse.
    apply Forall2_cons_inv_r in Hparse as (f & files' & Hs & _ & _).
    apply process_salami_ok in Hs as (_ & Hr & _ & Hl).
    cbn [fmap list_fmap mjoin list_join]. apply elem_of_app. left.
    rewrite Hl. apply last_runs in Hr. by eapply last_Some_elem_of. }
  split; [done|]. split.
  { apply list_elem_of_lookup in Heos as [i Hi]. exists i.
    by apply index_of_lookup; [apply sorted_set_nodup|]. }
  split.
  - intros xs i (n & Hn)%list_elem_of_lookup (m & Hm)%list_elem_of_lookup.
    destruct (Forall2_lookup_r _ _ _ _ _ HX Hn) as (s & _ & Hs).
    destruct (Forall2_lookup_r _ _ _ _ _ Hs Hm) as (c & _ & Hc).
    by eapply lookup_lt_Some.
  - intros ys i (n & Hn)%list_elem_of_lookup (m & Hm)%list_elem_of_lookup.
    destruct (Forall2_lookup_r _ _ _ _ _ HY Hn) as (s & _ & Hs).
    destruct (Forall2_lookup_r _ _ _ _ _ Hs Hm) as (c & _ & Hc).
    by eapply lookup_lt_Some.
Qed.

Lemma dataset_indices_witness :
  ∃ d, preprocess cpython two_songs = Ok d ∧ eos ∈ labels d.
Proof.
  assert (H : ∃ d, preprocess cpython two_songs = Ok d).
  { eexists. vm_compute. reflexivity. }
  destruct H as [d Hd]. exists d. split; [exact Hd|].
  exact (proj1 (dataset_indices cpython two_songs d Hd)).
Defined.

(** ** Access by position *)

Lemma list_item_lookup {A} (l : list A) (i : nat) (a : A) :
  l !! i = Some a →
  list_item l (Z.of_nat i) = Ok a
  ∧ list_item l (Z.of_nat i - Z.of_nat (length l)) = Ok a.
Proof.
  intros Hi. pose proof (lookup_lt_Some _ _ _ Hi) as Hlt.
  unfold list_item. cbv zeta. split.
  - destruct (Z.ltb_spec (Z.of_nat i) 0); [lia|].
    destruct (Z.ltb_spec (Z.of_nat i) 0); [lia|]. by rewrite Nat2Z.id, Hi.
  - destruct (Z.ltb_spec (Z.of_nat i - Z.of_nat (length l)) 0); [|lia].
    replace (Z.of_nat i - Z.of_nat (length l) + Z.of_nat (length l))%Z
      with (Z.of_nat i) by lia.
    destruct (Z.ltb_spec (Z.of_nat i) 0); [lia|]. by rewrite Nat2Z.id, Hi.
Qed.

Lemma list_item_range {A} (l : list A) (item : Z) :
  (list_item l item = Raise IndexError
   ↔ (item < - Z.of_nat (length l) ∨ Z.of_nat (length l) ≤ item)%Z)
  ∧ ((∃ a, list_item l item = Ok a) ∨ list_item l item = Raise IndexError).
Proof.
  unfold list_item. cbv zeta.
  destruct (Z.ltb_spec item 0) as [Hneg|Hpos].
  - destruct (Z.ltb_spec (item + Z.of_nat (length l)) 0) as [Hlow|Hin].
    + split; [|by right]. split; [lia|done].
    + destruct (l !! Z.to_nat (item + Z.of_nat (length l))) as [a|] eqn:E.
      * split; [|left; by eexists]. split; [done|lia].
      * apply lookup_ge_None in E. lia.
  - destruct (Z.ltb_spec item 0); [lia|].
    destruct (l !! Z.to_nat item) as [a|] eqn:E.
    + apply lookup_lt_Some in E. split; [|left; by eexists].
      split; [done|lia].
    + apply lookup_ge_None in E. split; [|by right]. split; [lia|done].
Qed.

Lemma decode_Forall2 (vocab : list str) (seq : list str) (xs : list nat) :
  Forall2 (fun c i => vocab !! i = Some c) seq xs → decode vocab xs = Some seq.
Proof. intros H. apply mapM_Some. by apply Forall2_flip. Qed.

(** X17. In a dataset the item at the position of a document is the pair
    of index sequences of that document's song: read back through [chords]
    and [labels] they give its [chord_seq] and its [label_seq].  The same
    item is found from the end, at the position minus [len]. *)
Theorem getitem_song (py : interpreter)
    (files : list (str * str)) (d : dataset) (i : nat)
    (f : str * str) :
  preprocess py files = Ok d → files !! i = Some f →
  ∃ s x y,
    process_salami py f.1 f.2 = Ok s
    ∧ getitem d (Z.of_nat i) = Ok (x, y)
    ∧ getitem d (Z.of_nat i - Z.of_nat (len d)) = Ok (x, y)
    ∧ decode (chords d) x = Some (chord_seq s)
    ∧ decode (labels d) y = Some (label_seq s).
Proof.
  intros Hd Hi. pose proof Hd as (songs & Hparse & Hne)%preprocess_songs.
  destruct (preprocess_dataset py files songs Hparse Hne) as (xss & yss & Hd' & HX & HY).
  rewrite Hd in Hd'. injection Hd' as ->.
  apply parse_all_Forall2 in Hparse.
  destruct (Forall2_lookup_l _ _ _ _ _ Hparse Hi) as (s & Hs & Hf).
  destruct (Forall2_lookup_l _ _ _ _ _ HX Hs) as (x & Hx & Hxs).
  destruct (Forall2_lookup_l _ _ _ _ _ HY Hs) as (y & Hy & Hys).
  exists s, x, y. split; [done|].
  destruct (list_item_lookup _ _ _ Hx) as [Hx1 Hx2].
  destruct (list_item_lookup _ _ _ Hy) as [Hy1 Hy2].
  unfold getitem, len. cbn [X Vocab.y chords labels].
  rewrite Hx1, Hx2. cbn [mbind result_bind].
  rewrite Hy1. rewrite <- (Forall2_length _ _ _ HX), (Forall2_length _ _ _ HY), Hy2.
  split; [done|]. split; [done|]. split; by apply decode_Forall2.
Qed.

Lemma getitem_song_witness :
  ∃ d x y, preprocess cpython two_songs = Ok d
    ∧ getitem d 1 = Ok (x, y)
    ∧ decode (chords d) x = Some (strs ["A:maj"; "B:min"]).
Proof.
  assert (H : ∃ d, preprocess cpython two_songs = Ok d).
  { eexists. vm_compute. reflexivity. }
  destruct H as [d Hd].
  destruct (getitem_song cpython two_songs d 1 ("b" : str, eos_label) Hd eq_refl)
    as (s & x & y & Hs & Hg & _ & Hx & _).
  exists d, x, y. split; [exact Hd|]. split; [exact Hg|].
  assert (E : process_salami cpython "b" eos_label
    = Ok (Song (<[("url" : str) := ("b" : str)]> ∅)
            (strs ["A:maj"; "B:min"]) (strs ["eos"; "eos"])))
    by (vm_compute; reflexivity).
  cbn [fst snd] in Hs. rewrite E in Hs. injection Hs as <-. exact Hx.
Defined.

(** X18. In a dataset an item exists at the integer positions from minus
    [len] to [len] minus one, and at every other position [__getitem__]
    raises [IndexError]. *)
Theorem getitem_range (py : interpreter)
    (files : list (str * str)) (d : dataset) (item : Z) :
  preprocess py files = Ok d →
  (getitem d item = Raise IndexError
   ↔ (item < - Z.of_nat (len d) ∨ Z.of_nat (len d) ≤ item)%Z)
  ∧ ((∃ x y, getitem d item = Ok (x, y)) ∨ getitem d item = Raise IndexError).
Proof.
  intros Hd. pose proof Hd as (songs & Hparse & Hne)%preprocess_songs.
  destruct (preprocess_dataset py files songs Hparse Hne) as (xss & yss & Hd' & HX & HY).
  rewrite Hd in Hd'. injection Hd' as ->.
  assert (Hlen : length yss = length xss).
  { by rewrite <- (Forall2_length _ _ _ HX), <- (Forall2_length _ _ _ HY). }
  unfold getitem, len. cbn [X Vocab.y].
  destruct (list_item_range xss item) as [Hx1 Hx2].
  destruct (list_item_range yss item) as [Hy1 Hy2]. rewrite Hlen in Hy1.
  destruct Hx2 as [[x Hx]|Hx]; rewrite Hx; cbn [mbind result_bind].
  - destruct Hy2 as [[y Hy]|Hy]; rewrite Hy; cbn [mbind result_bind].
    + split; [|left; by eexists _, _]. split; [done|].
      intros H. apply Hx1 in H. congruence.
    + apply Hy1, Hx1 in Hy. congruence.
  - split; [|by right]. split; [intros _; by apply Hx1|done].
Qed.

Lemma getitem_range_witness :
  ∃ d, preprocess cpython two_songs = Ok d ∧ getitem d 2 = Raise IndexError.
Proof.
  assert (H : ∃ d, preprocess cpython two_songs = Ok d ∧ len d = 2).
  { eexists. split; vm_compute; reflexivity. }
  destruct H as (d & Hd & Hlen). exists d. split; [exact Hd|].
  apply (proj1 (getitem_range cpython two_songs d 2 Hd)). right. rewrite Hlen. lia.
Defined.

(** X20. In a dataset the label sequence of an item is never shorter
    than its chord sequence: it is longer by the number of retained
    sections of the document that have no chord. *)
Theorem getitem_lengths (py : interpreter)
    (files : list (str * str)) (d : dataset) (i : nat)
    (f : str * str) (x y : list nat) :
  preprocess py files = Ok d → files !! i = Some f →
  getitem d (Z.of_nat i) = Ok (x, y) →
  length y = length x + length (chordless (retained_sections py f.2)).
Proof.
  intros Hd Hi Hg. pose proof Hd as (songs & Hparse & Hne)%preprocess_songs.
  destruct (preprocess_dataset py files songs Hparse Hne) as (xss & yss & Hd' & HX & HY).
  rewrite Hd in Hd'. injection Hd' as ->.
  apply parse_all_Forall2 in Hparse.
  destruct (Forall2_lookup_l _ _ _ _ _ Hparse Hi) as (s & Hs & Hf).
  destruct (Forall2_lookup_l _ _ _ _ _ HX Hs) as (x' & Hx & Hxs).
  destruct (Forall2_lookup_l _ _ _ _ _ HY Hs) as (y' & Hy & Hys).
  destruct (list_item_lookup _ _ _ Hx) as [Hx1 _].
  destruct (list_item_lookup _ _ _ Hy) as [Hy1 _].
  unfold getitem in Hg. cbn [X Vocab.y] in Hg. rewrite Hx1 in Hg.
  cbn [mbind result_bind] in Hg. rewrite Hy1 in Hg. injection Hg as <- <-.
  rewrite <- (Forall2_length _ _ _ Hxs), <- (Forall2_length _ _ _ Hys).
  apply (label_seq_length py _ _ _ Hf).
Qed.

Lemma getitem_lengths_witness :
  ∃ d x y, preprocess cpython [("a" : str, chordless_intro)] = Ok d
    ∧ getitem d 0 = Ok (x, y)
    ∧ length y = length x + length (chordless (retained_sections cpython chordless_intro)).
Proof.
  assert (H : ∃ d x y, preprocess cpython [("a" : str, chordless_intro)] = Ok d
                ∧ getitem d 0 = Ok (x, y)).
  { eexists _, _, _. split; vm_compute; reflexivity. }
  destruct H as (d & x & y & Hd & Hg). exists d, x, y.
  split; [exact Hd|]. split; [exact Hg|].
  exact (getitem_lengths cpython _ d 0 ("a" : str, chordless_intro) x y Hd eq_refl Hg).
Defined.

(** ** The order of the documents *)

Lemma merge_sort_permutation (found found' : list str) :
  found ≡ₚ found' → merge_sort str_le found = merge_sort str_le found'.
Proof.
  intros Hp. apply (StronglySorted_unique str_le).
  - apply StronglySorted_merge_sort; apply _.
  - apply StronglySorted_merge_sort; apply _.
  - by rewrite !merge_sort_Permutation.
Qed.

(** X19. The dataset does not depend on the order in which the paths were
    found: [sorted] puts them in the order of Python on strings, so the
    paths under "url" in [info] are sorted. *)
Theorem preprocess_found_order (py : interpreter)
    (read : str → str) (found found' : list str) :
  found ≡ₚ found' →
  preprocess_found py read found = preprocess_found py read found'
  ∧ ∀ d, preprocess_found py read found = Ok d →
      ∃ paths, paths ≡ₚ found
        ∧ StronglySorted str_le paths
        ∧ Forall2 (fun p h => h !! ("url" : str) = Some p) paths (info d).
Proof.
  intros Hp. split.
  { unfold preprocess_found. by rewrite (merge_sort_permutation _ _ Hp). }
  intros d Hd. exists (merge_sort str_le found).
  split; [apply merge_sort_Permutation|].
  split; [apply StronglySorted_merge_sort; apply _|].
  unfold preprocess_found in Hd.
  pose proof Hd as (songs & Hparse & Hne)%preprocess_songs.
  destruct (preprocess_dataset py _ songs Hparse Hne) as (xss & yss & Hd' & _).
  rewrite Hd in Hd'. injection Hd' as ->. cbn [info].
  apply parse_all_Forall2 in Hparse.
  rewrite Forall2_fmap_l in Hparse. rewrite Forall2_fmap_r.
  eapply Forall2_impl; [exact Hparse|]. intros p s Hs. cbn in Hs.
  apply process_salami_ok in Hs as (Hh & _). by eapply read_headers_url.
Qed.

Lemma preprocess_found_order_witness :
  preprocess_found cpython (fun _ => eos_label) (strs ["b"; "a"])
  = preprocess_found cpython (fun _ => eos_label) (strs ["a"; "b"]).
Proof.
  apply (preprocess_found_order cpython (fun _ => eos_label) (strs ["b"; "a"])
           (strs ["a"; "b"])).
  apply perm_swap.
Defined.

(** ** Sections of a closed document *)

Lemma lazy_lines_exists (rest : list str) (j : nat) (l : str) :
  rest !! j = Some l → section_ahead l = true →
  ∃ body, lazy_lines rest = Some body.
Proof.
  revert j. induction rest as [|l0 rest IH]; intros j Hj Hl; [done|].
  cbn. destruct (section_ahead l0) eqn:E0; [by eexists|].
  destruct j as [|j]; cbn in Hj; [congruence|].
  destruct (IH j Hj Hl) as [body ->]. by eexists.
Qed.

Lemma finditer_from_labels (ls : list str) :
  (∀ i l, ls !! i = Some l → is_Some (section_start l) →
     ∃ j l', i < j ∧ ls !! j = Some l' ∧ section_ahead l' = true) →
  (finditer_from 0 ls).*1 = omap section_start ls.
Proof.
  induction ls as [|l rest IH]; intros H; [done|].
  assert (Hrest : (finditer_from 0 rest).*1 = omap section_start rest).
  { apply IH. intros i l0 Hi Hs.
    destruct (H (S i) l0 Hi Hs) as (j & l' & Hlt & Hj & Hl').
    destruct j as [|j]; [lia|]. exists j, l'. split; [lia|done]. }
  rewrite finditer_from_cons. cbn [omap list_omap].
  destruct (section_start l) as [label|] eqn:El; [|done].
  destruct (H 0 l eq_refl) as (j & l' & Hlt & Hj & Hl'); [by eexists|].
  destruct j as [|j]; [lia|]. cbn in Hj.
  destruct (lazy_lines_exists rest j l' Hj Hl') as [body ->].
  cbn. by rewrite Hrest.
Qed.

(** X21. When every line that starts a section has after it a line that
    passes the lookahead (the closing line "end" of a transcript, or the
    next section), the segmenter returns one section for each line that
    starts a section, with the labels in the order of the document. *)
Theorem closed_document_sections (salami : str) :
  (∀ i l, split nl salami !! i = Some l → is_Some (section_start l) →
     ∃ j l', i < j ∧ split nl salami !! j = Some l' ∧ section_ahead l' = true) →
  (finditer_sections salami).*1 = omap section_start (split nl salami).
Proof. apply finditer_from_labels. Qed.

Lemma closed_document_sections_witness :
  (finditer_sections verse_chorus).*1 = strs ["verse"; "chorus"].
Proof.
  rewrite closed_document_sections; [vm_compute; reflexivity|].
  intros i l Hi [w Hw].
  exists 6, (row "5" "end"). split.
  - do 6 (destruct i as [|i]; [lia|]).
    destruct i as [|i]; [vm_compute in Hi|by vm_compute in Hi].
    injection Hi as <-. by vm_compute in Hw.
  - split; vm_compute; reflexivity.
Defined.

Lemma lines_chords_empty_last (py : interpreter) (lines : list str) :
  lines_chords py (lines ++ [[]]) = lines_chords py lines.
Proof.
  unfold lines_chords. rewrite fmap_app, List.filter_app. cbn. by rewrite app_nil_r.
Qed.

(** X22. The chords of a section are those of its lines, from the line
    that starts it up to the line on which the lookahead holds, excluded:
    the chords written on the starting line count, and the empty piece
    that the last line feed of the match leaves adds nothing. *)
Theorem section_chords_of_span (py : interpreter)
    (salami : str) (m : str * str) :
  m ∈ finditer_sections salami →
  ∃ sp, is_section (split nl salami) sp
    ∧ m.1 = span_label sp
    ∧ section_chords py m.2 = lines_chords py (span_lines (split nl salami) sp).
Proof.
  unfold finditer_sections.
  destruct (finditer_from_spans (split nl salami)) as (spans & -> & Hiff & _).
  intros (sp & -> & Hsp)%list_elem_of_fmap. exists sp.
  split; [by apply Hiff|]. split; [done|]. cbn [snd].
  unfold section_chords. rewrite split_unlines; [apply lines_chords_empty_last|].
  unfold span_lines. apply Forall_take, Forall_drop, split_no_nl.
Qed.

Lemma section_chords_of_span_witness :
  ∃ sp, is_section (split nl zero_repeat) sp
    ∧ section_chords cpython (row "0" "A, verse, | C:maj | x0" ++ [nl])
      = lines_chords cpython (span_lines (split nl zero_repeat) sp).
Proof.
  destruct (section_chords_of_span cpython zero_repeat
              ("verse" : str, row "0" "A, verse, | C:maj | x0" ++ [nl]))
    as (sp & H1 & _ & H3).
  - vm_compute. left.
  - exists sp. split; assumption.
Defined.

(** ** Examples *)

(** The scenario of a verse and a chorus. *)
Example verse_chorus_song :
  process_salami cpython "f" verse_chorus
  = Ok (Song (<[("url" : str) := ("f" : str)]>
                (<[("title" : str) := ("T" : str)]> ∅))
          (strs ["A:maj"; "B:min"; "A:maj"; "A:maj"; "C:maj"])
          (strs ["verse"; "verse"; "verse"; "eos"; "eos"])).
Proof. by vm_compute. Qed.

Example two_songs_dataset :
  ∃ d, preprocess cpython two_songs = Ok d
    ∧ chords d = strs ["A:maj"; "B:min"; "C:maj"]
    ∧ labels d = strs ["eos"; "verse"]
    ∧ X d = [[0; 1; 0; 0; 2]; [0; 1]]
    ∧ y d = [[1; 1; 1; 0; 0]; [0; 0]].
Proof. eexists. split; [vm_compute; reflexivity|]. vm_compute. repeat split. Qed.

(** A repeat marker beyond the index range ends the parse of the document
    and the construction of the dataset. *)
Example huge_repeat_aborts :
  process_salami cpython "f" huge_repeat = Raise OverflowError
  ∧ preprocess cpython [("a" : str, verse_chorus); ("b" : str, huge_repeat)]
    = Raise OverflowError.
Proof. split; vm_compute; reflexivity. Qed.
